(** * Runner nutrition pipeline: extraction and idempotent bronze load

    A shallow embedding of [extract_youtube] and [load_bronze] from
    [airflow/dags/runner_nutrition_dag.py], and the properties of the
    watermark reader, the keyword filter, the per-query error handling,
    the de-duplication and the idempotent MERGE load.

    Conventions of the model:
    - a Python [str] is the [string] of the bytes of its UTF-8 encoding,
      each code point encoded on its own; the operations that count
      characters ([len], slicing) count code points, not bytes;
    - a timestamp is a number of seconds ([Z]) on the UTC time line;
    - a Python [set] of identifiers is a [gset string];
    - a table of the warehouse is the list of its rows, oldest first. *)

From Stdlib Require Import ZArith Lia Ascii.
From stdpp Require Import base strings list gmap sets pretty.

Local Open Scope Z_scope.

(** ** Python string operations used by the DAG *)

Module Str.

(** A byte [10xxxxxx] continues the encoding of a code point; every
    other byte starts one. *)
Definition continuation (c : ascii) : bool :=
  let n := N_of_ascii c in ((128 <=? n) && (n <? 192))%N.

(** [len(s)]: the number of code points of [s] *)
Fixpoint len (s : string) : nat :=
  match s with
  | EmptyString => O
  | String c s' => if continuation c then len s' else S (len s')
  end.

(** [s[:n]] for a literal [n >= 0]: the first [n] code points of [s],
    all of [s] when it has fewer. *)
Fixpoint take (n : nat) (s : string) : string :=
  match s with
  | EmptyString => EmptyString
  | String c s' =>
      if continuation c then String c (take n s')
      else match n with
           | O => EmptyString
           | S n' => String c (take n' s')
           end
  end.

(** [s] does not begin in the middle of a code point, as every encoded
    [str] does not. *)
Definition starts_code_point (s : string) : bool :=
  match s with
  | EmptyString => true
  | String c _ => negb (continuation c)
  end.

(** [s.startswith(p)] *)
Fixpoint starts_with (p s : string) : bool :=
  match p, s with
  | EmptyString, _ => true
  | String a p', String b s' => bool_decide (a = b) && starts_with p' s'
  | String _ _, EmptyString => false
  end.

(** [p in s]: [p] occurs in [s] as a contiguous run.  The encoding of
    a code point is never part of the encoding of other code points, so
    that a run of bytes of encoded text is a run of code points. *)
Fixpoint contains (p s : string) : bool :=
  starts_with p s
  || match s with
     | EmptyString => false
     | String _ s' => contains p s'
     end.

(** [s.replace(a, b)] for [a] and [b] of one ASCII character each *)
Fixpoint replace_char (a b : ascii) (s : string) : string :=
  match s with
  | EmptyString => EmptyString
  | String c s' =>
      String (if bool_decide (c = a) then b else c) (replace_char a b s')
  end.

(** [sep.join(l)] *)
Fixpoint join (sep : string) (l : list string) : string :=
  match l with
  | [] => ""
  | [x] => x
  | x :: l' => x +:+ sep +:+ join sep l'
  end.

End Str.

(** ** Configuration *)

Definition FOOD_KEYWORDS : list string :=
  [ "carb"; "carbs"; "carbohydrate"; "protein"; "fat"; "banana";
    "oatmeal"; "pasta"; "rice"; "egg"; "chicken"; "gel"; "energy gel";
    "bar"; "protein bar"; "coffee"; "sports drink"; "hydration";
    "yogurt"; "milk"; "sweet potato"; "quinoa"; "salmon"; "avocado";
    "nuts"; "berries"; "bread"; "bagel"; "smoothie"; "fruit" ].

Definition SEARCH_QUERIES : list string :=
  [ "runner nutrition food";
    "marathon nutrition";
    "running diet";
    "ultramarathon fueling";
    "what runners eat" ].

(** ** Data model *)

(** One element of [response['items']].  A field is [None] when its key
    is missing from the JSON object: subscripting it raises [KeyError],
    [.get(key, '')] yields the default. *)
Record item := Item {
  item_videoId      : option string;   (* item['id']['videoId'] *)
  item_title        : option string;   (* item['snippet']['title'] *)
  item_description  : option string;   (* item['snippet'].get('description', '') *)
  item_channelTitle : option string;   (* item['snippet']['channelTitle'] *)
  item_publishedAt  : option string    (* item['snippet']['publishedAt'] *)
}.

(** The dict appended to [all_videos] and handed over through XCom. *)
Record video := Video {
  video_id        : string;
  title           : string;
  description     : string;
  channel_title   : string;
  published_at    : string;
  url             : string;
  mentioned_foods : string;
  year            : Z
}.

Global Instance item_eq_dec : EqDecision item.
Proof. solve_decision. Defined.

Global Instance video_eq_dec : EqDecision video.
Proof. solve_decision. Defined.

(** What [youtube.search().list(...).execute()] does for one query:
    it raises an [Exception], or it returns a response whose ['items']
    are given. *)
Inductive api_result :=
| RequestError
| Response (items : list item).

(** ** Task 1: the keyword filter, the query loop and the de-duplication *)

(** Outcome of one iteration of the loop over the items of a response. *)
Inductive item_outcome :=
| Raised                (* an exception left the loop body *)
| Skipped               (* [mentioned_foods] was empty *)
| Kept (v : video).     (* a dict was appended to [all_videos] *)

(** [[f for f in FOOD_KEYWORDS if f in text]] *)
Definition matched_keywords (text : string) : list string :=
  filter (λ f, Str.contains f text = true) FOOD_KEYWORDS.

Section Extract.

(** Python's [str.lower], of which nothing is assumed: the lower case of
    a code point may take more code points than the code point itself. *)
Variable py_lower : string → string.

(** Python's [int] applied to a [str]: [None] when it raises. *)
Variable py_int : string → option Z.

(** The search API that [build] returns: the outcome of the request for
    a topic query and a [publishedAfter] watermark. *)
Variable search : string → string → api_result.

(** The text the keywords are looked up in (lines 155-157). *)
Definition search_text (ttl descr : string) : string :=
  py_lower ttl +:+ " " +:+ py_lower descr.

(** The body of the loop over the items (lines 155-171). *)
Definition process_item (it : item) : item_outcome :=
  match item_title it with
  | None => Raised
  | Some ttl =>
      let descr := default "" (item_description it) in
      let text := search_text ttl descr in
      let foods := matched_keywords text in
      match foods with
      | [] => Skipped
      | _ :: _ =>
          match item_videoId it, item_channelTitle it, item_publishedAt it with
          | Some vid, Some chan, Some pub =>
              match py_int (Str.take 4 pub) with
              | Some y =>
                  Kept {| video_id := vid;
                          title := ttl;
                          description := descr;
                          channel_title := chan;
                          published_at :=
                            Str.replace_char "T" " " (Str.take 19 pub);
                          url := "https://youtube.com/watch?v=" +:+ vid;
                          mentioned_foods := Str.join "," foods;
                          year := y |}
              | None => Raised
              end
          | _, _, _ => Raised
          end
      end
  end.

(** The loop over the items of one response.  [all_videos] is updated
    in place, so what was appended before an exception stays appended;
    the flag tells whether the loop ran to its end. *)
Fixpoint process_items (items : list item) (all_videos : list video)
  : bool * list video :=
  match items with
  | [] => (true, all_videos)
  | it :: items' =>
      match process_item it with
      | Raised => (false, all_videos)
      | Skipped => process_items items' all_videos
      | Kept v => process_items items' (all_videos ++ [v])
      end
  end.

(** One iteration of the loop over [SEARCH_QUERIES]: the [try] block
    and its [except Exception: continue] (lines 144-175).  The flag
    tells whether the [try] block completed. *)
Definition fetch_query (published_after : string) (all_videos : list video)
           (query : string) : bool * list video :=
  match search query published_after with
  | RequestError => (false, all_videos)
  | Response items => process_items items all_videos
  end.

(** The loop over the queries (lines 141-175): [all_videos] at its end,
    and the queries for which [logging.error] was called, in order. *)
Definition fetch_all (published_after : string) (queries : list string)
  : list video * list string :=
  foldl (λ '(all_videos, logged) query,
           let '(completed, all_videos') :=
             fetch_query published_after all_videos query in
           (all_videos', if completed then logged else logged ++ [query]))
        ([], []) queries.

End Extract.

(** What the statements of [extract_youtube] that are not under the
    [try] block of the query loop do, each of which may raise:
    - [import_build]: whether [from googleapiclient.discovery import
      build] succeeds (line 109);
    - [strftime]: [last_date.strftime('%Y-%m-%dT%H:%M:%SZ')] for the
      watermark read from the warehouse, [None] when it raises (line 127);
    - [build]: the search API that [build('youtube', 'v3', ...)] gives,
      [None] when it raises (line 131);
    - [xcom_push_videos], [xcom_push_video_count]: whether the push of
      the value succeeds (lines 187-188). *)
Record client := Client {
  import_build          : bool;
  strftime              : Z → option string;
  build                 : option (string → string → api_result);
  xcom_push_videos      : list video → bool;
  xcom_push_video_count : Z → bool
}.

(** De-duplication by [video_id] (lines 177-183), with the [seen] set
    and the [unique_videos] list as loop state. *)
Fixpoint dedup_loop (all_videos : list video) (seen : gset string)
         (unique_videos : list video) : list video :=
  match all_videos with
  | [] => unique_videos
  | v :: rest =>
      if decide (video_id v ∈ seen)
      then dedup_loop rest seen unique_videos
      else dedup_loop rest ({[video_id v]} ∪ seen) (unique_videos ++ [v])
  end.

Definition deduplicate (all_videos : list video) : list video :=
  dedup_loop all_videos ∅ [].

(** ** The warehouse *)

(** A row of [raw_youtube_videos]; [published_at] is a timestamp column. *)
Record raw_row := RawRow {
  raw_video_id        : string;
  raw_title           : string;
  raw_description     : string;
  raw_channel_title   : string;
  raw_published_at    : Z;
  raw_url             : string;
  raw_mentioned_foods : string;
  raw_year            : Z
}.

(** A row of [stg_processed_videos], the ledger of processed identifiers. *)
Record processed_row := ProcessedRow {
  processed_video_id : string;
  processing_status  : string
}.

Record database := Database {
  raw_youtube_videos   : list raw_row;
  stg_processed_videos : list processed_row
}.

Global Instance raw_row_eq_dec : EqDecision raw_row.
Proof. solve_decision. Defined.

Global Instance processed_row_eq_dec : EqDecision processed_row.
Proof. solve_decision. Defined.

Global Instance database_eq_dec : EqDecision database.
Proof. solve_decision. Defined.

(** The statements the DAG sends through [cursor.execute]. *)
Inductive statement :=
| SelectWatermark
| SelectProcessed (video_ids : list string)
| MergeRaw (r : raw_row)
| InsertProcessed (vid : string).

(** The calls made on the connection and its cursor, in program order. *)
Inductive event :=
| Connect
| OpenCursor
| Execute (st : statement)
| Commit
| CloseCursor
| CloseConnection.

Definition is_write (e : event) : bool :=
  match e with
  | Execute (MergeRaw _) | Execute (InsertProcessed _) => true
  | _ => false
  end.

Definition is_commit (e : event) : bool :=
  match e with
  | Commit => true
  | _ => false
  end.

(** What the code does not fix and the warehouse and its clock decide:
    - [autocommit]: the transaction mode of a session.  No [autocommit]
      argument is passed to [snowflake.connector.connect], so the mode is
      the one configured for the account: either every statement is
      committed as it is executed, or writes wait for [conn.commit()];
    - [faults]: which storage calls of a run raise, by their position in
      the run's sequence of calls;
    - [to_timestamp]: the conversion of a bound ['YYYY-MM-DD HH:MM:SS']
      string to a value of the timestamp column;
    - [current_timestamp]: [CURRENT_TIMESTAMP()]. *)
Record environment := Environment {
  autocommit        : bool;
  faults            : nat → bool;
  to_timestamp      : string → Z;
  current_timestamp : Z
}.

(** State of a run: the committed tables, the tables as the open
    connection sees them (committed rows and its own uncommitted writes),
    and the calls made so far. *)
Record session := Session {
  persisted : database;
  view      : database;
  trace     : list event
}.

Inductive result (A : Type) :=
| Ok (a : A)
| Exn.
Arguments Ok {A} a.
Arguments Exn {A}.

(** Computations that read and write the session and may raise. *)
Definition M (A : Type) : Type := session → result A * session.

Global Instance M_ret : MRet M := λ A a s, (Ok a, s).

Global Instance M_bind : MBind M := λ A B k m s,
  match m s with
  | (Ok a, s') => k a s'
  | (Exn, s') => (Exn, s')
  end.

(** [for x in l: body(x)] *)
Fixpoint for_each {A} (l : list A) (body : A → M unit) : M unit :=
  match l with
  | [] => mret tt
  | x :: l' => body x;; for_each l' body
  end.

Definition seconds_per_day : Z := 86400.

(** [MAX(published_at)] over the rows of a table: NULL on no rows. *)
Fixpoint max_published_at (rows : list raw_row) : option Z :=
  match rows with
  | [] => None
  | r :: rows' =>
      Some (match max_published_at rows' with
            | None => raw_published_at r
            | Some m => Z.max (raw_published_at r) m
            end)
  end.

(** The MERGE of lines 232-250 on the table: the source is one row, which
    is inserted when no target row carries its [video_id]. *)
Definition merge_raw (r : raw_row) (rows : list raw_row) : list raw_row :=
  if decide (raw_video_id r ∈ raw_video_id <$> rows) then rows else rows ++ [r].

(** The effect of a write statement on the tables. *)
Definition apply_write (st : statement) (db : database) : database :=
  match st with
  | MergeRaw r =>
      {| raw_youtube_videos := merge_raw r (raw_youtube_videos db);
         stg_processed_videos := stg_processed_videos db |}
  | InsertProcessed vid =>
      {| raw_youtube_videos := raw_youtube_videos db;
         stg_processed_videos :=
           stg_processed_videos db ++ [ProcessedRow vid "SUCCESS"] |}
  | SelectWatermark | SelectProcessed _ => db
  end.

Section Warehouse.

Variable env : environment.

(** A call on the connection: it is recorded, and raises when the
    warehouse fails it; otherwise [effect] gives its value and the
    tables afterwards. *)
Definition storage_call {A} (e : event)
           (effect : session → A * database * database) : M A :=
  λ s,
    let tr := trace s ++ [e] in
    if faults env (length (trace s))
    then (Exn, {| persisted := persisted s; view := view s; trace := tr |})
    else
      let '(a, p, v) := effect s in
      (Ok a, {| persisted := p; view := v; trace := tr |}).

(** [get_snowflake_connection()]: the new session sees what is committed. *)
Definition get_snowflake_connection : M unit :=
  storage_call Connect (λ s, (tt, persisted s, persisted s)).

(** [conn.cursor()] and [cursor.close()] stay on the client. *)
Definition local_call (e : event) : M unit :=
  λ s, (Ok tt, {| persisted := persisted s; view := view s;
                  trace := trace s ++ [e] |}).

Definition open_cursor : M unit := local_call OpenCursor.
Definition close_cursor : M unit := local_call CloseCursor.

(** [conn.close()]: writes that were not committed are dropped. *)
Definition close_connection : M unit :=
  storage_call CloseConnection (λ s, (tt, persisted s, persisted s)).

(** [conn.commit()] *)
Definition commit : M unit :=
  storage_call Commit (λ s, (tt, view s, view s)).

(** [cursor.execute] of a write statement: the connection sees the
    write at once; it is committed at once in autocommit mode. *)
Definition execute_write (st : statement) : M unit :=
  storage_call (Execute st)
    (λ s, let v := apply_write st (view s) in
          (tt, if autocommit env then v else persisted s, v)).

(** [cursor.execute] of the watermark query, then [cursor.fetchone()[0]]:
    [COALESCE(MAX(published_at), DATEADD(day, -7, CURRENT_TIMESTAMP()))]. *)
Definition execute_select_watermark : M Z :=
  storage_call (Execute SelectWatermark)
    (λ s, (default (current_timestamp env - 7 * seconds_per_day)
                   (max_published_at (raw_youtube_videos (view s))),
           persisted s, view s)).

(** [cursor.execute] of the ledger query, then [cursor.fetchall()]: the
    [video_id] of every ledger row whose [video_id] is in the list. *)
Definition execute_select_processed (video_ids : list string)
  : M (list string) :=
  storage_call (Execute (SelectProcessed video_ids))
    (λ s, (filter (λ i, i ∈ video_ids)
                  (processed_video_id <$> stg_processed_videos (view s)),
           persisted s, view s)).

(** The values bound to the MERGE for one video (lines 241-249). *)
Definition raw_row_of_video (v : video) : raw_row :=
  {| raw_video_id := video_id v;
     raw_title := Str.take 500 (title v);
     raw_description := Str.take 5000 (description v);
     raw_channel_title := Str.take 200 (channel_title v);
     raw_published_at := to_timestamp env (published_at v);
     raw_url := url v;
     raw_mentioned_foods := mentioned_foods v;
     raw_year := year v |}.

(** ** The watermark reader (lines 114-125) *)
Definition watermark_reader : M Z :=
  get_snowflake_connection;;
  open_cursor;;
  last_date ← execute_select_watermark;
  close_cursor;;
  close_connection;;
  mret last_date.

(** ** Task 2: [load_bronze]

    [videos] is what [xcom_pull] returns: [None] when nothing was
    pushed. *)
Definition load_bronze (videos : option (list video)) : M Z :=
  match videos with
  | None | Some [] => mret 0
  | Some videos =>
      get_snowflake_connection;;
      open_cursor;;
      let video_ids := video_id <$> videos in
      rows ← execute_select_processed video_ids;
      let existing_ids : gset string := list_to_set rows in
      let new_videos := filter (λ v, video_id v ∉ existing_ids) videos in
      match new_videos with
      | [] => close_connection;; mret 0
      | _ :: _ =>
          for_each new_videos (λ video,
            execute_write (MergeRaw (raw_row_of_video video));;
            execute_write (InsertProcessed (video_id video)));;
          commit;;
          close_cursor;;
          close_connection;;
          mret (Z.of_nat (length new_videos))
      end
  end.

(** A step made on the client, outside the warehouse: it raises
    ([None]) or gives a value. *)
Definition client_step {A} (o : option A) : M A :=
  λ s, (match o with Some a => Ok a | None => Exn end, s).

(** A call that gives no value and raises unless [ok]. *)
Definition client_call (ok : bool) : M unit :=
  client_step (if ok then Some tt else None).

(** ** Task 1: [extract_youtube]

    The statements outside the [try] block of the query loop raise as
    the client decides: the import of line 109, [strftime] (line 127),
    [build] (line 131) and the two [xcom_push] (lines 187-188); whatever
    is raised under the [try] is caught there.  The pair a run returns
    is what it has pushed to XCom under ['videos'] and ['video_count'];
    the count is also the task's return value.  Of a run that raises,
    nothing that it pushed is kept here: no task reads it, since the
    tasks downstream wait for the task to succeed. *)
Definition extract_youtube (py_lower : string → string)
           (py_int : string → option Z) (cl : client) : M (list video * Z) :=
  client_call (import_build cl);;
  last_date ← watermark_reader;
  published_after ← client_step (strftime cl last_date);
  youtube ← client_step (build cl);
  let all_videos :=
    (fetch_all py_lower py_int youtube published_after SEARCH_QUERIES).1 in
  let unique_videos := deduplicate all_videos in
  let video_count := Z.of_nat (length unique_videos) in
  client_call (xcom_push_videos cl unique_videos);;
  client_call (xcom_push_video_count cl video_count);;
  mret (unique_videos, video_count).

(** A task run on the committed tables [db]: its outcome, the committed
    tables it leaves and the calls it made. *)
Definition run {A} (task : M A) (db : database)
  : result A * database * list event :=
  let '(r, s) := task {| persisted := db; view := db; trace := [] |} in
  (r, persisted s, trace s).

End Warehouse.

(** The three components of a run. *)
Definition returned {A} (o : result A * database * list event) : result A :=
  o.1.1.
Definition tables {A} (o : result A * database * list event) : database :=
  o.1.2.
Definition calls {A} (o : result A * database * list event) : list event :=
  o.2.

(** ** Vocabulary of the properties *)

(** [p] occurs in [s] as a contiguous run of characters. *)
Definition is_substring (p s : string) : Prop :=
  ∃ a b, s = a +:+ p +:+ b.

(** The first record of a list that carries a given identifier. *)
Fixpoint first_with_id (vid : string) (l : list video) : option video :=
  match l with
  | [] => None
  | v :: l' => if decide (video_id v = vid) then Some v else first_with_id vid l'
  end.

Section Fetched.

Variable py_lower : string → string.
Variable py_int : string → option Z.
Variable search : string → string → api_result.
Variable published_after : string.

(** An item carries every field the loop body subscripts, and the year
    of its publication timestamp reads as a number. *)
Definition item_well_formed (it : item) : bool :=
  match item_videoId it, item_title it, item_channelTitle it,
        item_publishedAt it with
  | Some _, Some _, Some _, Some pub => bool_decide (is_Some (py_int (Str.take 4 pub)))
  | _, _, _, _ => false
  end.

(** The text of an item with no separator between title and description. *)
Definition concatenated_text (ttl descr : string) : string :=
  py_lower ttl +:+ py_lower descr.

(** The text the loop builds for an item that has a title. *)
Definition item_text (it : item) : string :=
  search_text py_lower (default "" (item_title it))
              (default "" (item_description it)).

(** The items of a response that pass the keyword filter, each item
    taken on its own. *)
Definition matching_videos (items : list item) : list video :=
  omap (λ it, match process_item py_lower py_int it with
              | Kept v => Some v
              | _ => None
              end) items.

(** The items of a response that come before its first item whose
    processing raises: the items the loop reads and does not stop at. *)
Fixpoint items_before_error (items : list item) : list item :=
  match items with
  | [] => []
  | it :: items' =>
      match process_item py_lower py_int it with
      | Raised => []
      | _ => it :: items_before_error items'
      end
  end.

(** What a query adds to [all_videos]. *)
Definition query_videos (query : string) : list video :=
  match search query published_after with
  | RequestError => []
  | Response items => matching_videos (items_before_error items)
  end.

(** A query fails when its [try] block is left by an exception. *)
Definition query_fails (query : string) : bool :=
  negb (fetch_query py_lower py_int search published_after [] query).1.

(** The union of the matching items of the queries that did not fail,
    a failed query giving nothing. *)
Definition successful_union (queries : list string) : list video :=
  queries ≫= λ q,
    if query_fails q then []
    else match search q published_after with
         | RequestError => []
         | Response items => matching_videos items
         end.

(** The same union when only a failed request counts as a failed query. *)
Definition answered_union (queries : list string) : list video :=
  queries ≫= λ q,
    match search q published_after with
    | RequestError => []
    | Response items => matching_videos items
    end.

End Fetched.

(** The identifiers recorded in the ledger. *)
Definition ledger_ids (db : database) : list string :=
  processed_video_id <$> stg_processed_videos db.

(** The candidates of a batch whose identifier is not in the ledger. *)
Definition new_videos_of (db : database) (videos : list video) : list video :=
  filter (λ v, video_id v ∉ ledger_ids db) videos.

(** The two writes made for one video, and for a list of videos. *)
Definition load_video (env : environment) (db : database) (v : video)
  : database :=
  apply_write (InsertProcessed (video_id v))
    (apply_write (MergeRaw (raw_row_of_video env v)) db).

Definition load_videos (env : environment) (l : list video) (db : database)
  : database :=
  foldl (load_video env) db l.

Definition write_events (env : environment) (l : list video) : list event :=
  l ≫= λ v, [Execute (MergeRaw (raw_row_of_video env v));
             Execute (InsertProcessed (video_id v))].

(** The loop of lines 230-256 on its own. *)
Definition load_loop (env : environment) (new_videos : list video) : M unit :=
  for_each new_videos (λ video,
    execute_write env (MergeRaw (raw_row_of_video env video));;
    execute_write env (InsertProcessed (video_id video))).

(** The effect on the tables of the statements of a list of calls. *)
Definition apply_events (l : list event) (db : database) : database :=
  foldl (λ d e, match e with
                | Execute st => apply_write st d
                | _ => d
                end) db l.

(** The calls [load_bronze] makes before it looks at the ledger's answer. *)
Definition load_head (videos : list video) : list event :=
  [Connect; OpenCursor; Execute (SelectProcessed (video_id <$> videos))].

(** The ways a run of [load_bronze] on a non-empty batch can go: its
    outcome, the committed tables it leaves and the calls it made.  The
    positions are those of the calls in the run; [W] is the list of the
    writes of the batch. *)
Inductive load_outcome (env : environment) (db : database)
          (videos : list video) : result Z → database → list event → Prop :=
| connect_failed :
    faults env 0%nat = true →
    load_outcome env db videos Exn db [Connect]
| select_failed :
    faults env 0%nat = false → faults env 2%nat = true →
    load_outcome env db videos Exn db (load_head videos)
| nothing_new :
    faults env 0%nat = false → faults env 2%nat = false →
    new_videos_of db videos = [] →
    load_outcome env db videos
      (if faults env 3%nat then Exn else Ok 0) db
      (load_head videos ++ [CloseConnection])
| write_failed (k : nat) :
    let W := write_events env (new_videos_of db videos) in
    faults env 0%nat = false → faults env 2%nat = false →
    (k < length W)%nat →
    (∀ j, (j < k)%nat → faults env (3 + j)%nat = false) →
    faults env (3 + k)%nat = true →
    load_outcome env db videos Exn
      (if autocommit env then apply_events (take k W) db else db)
      (load_head videos ++ take (S k) W)
| commit_failed :
    let W := write_events env (new_videos_of db videos) in
    faults env 0%nat = false → faults env 2%nat = false →
    new_videos_of db videos ≠ [] →
    (∀ j, (j < length W)%nat → faults env (3 + j)%nat = false) →
    faults env (3 + length W)%nat = true →
    load_outcome env db videos Exn
      (if autocommit env then apply_events W db else db)
      (load_head videos ++ W ++ [Commit])
| committed :
    let W := write_events env (new_videos_of db videos) in
    faults env 0%nat = false → faults env 2%nat = false →
    new_videos_of db videos ≠ [] →
    (∀ j, (j < length W)%nat → faults env (3 + j)%nat = false) →
    faults env (3 + length W)%nat = false →
    load_outcome env db videos
      (if faults env (3 + length W + 2)%nat then Exn
       else Ok (Z.of_nat (length (new_videos_of db videos))))
      (apply_events W db)
      (load_head videos ++ W ++ [Commit; CloseCursor; CloseConnection]).

(** The rows of the raw store that carry a given identifier. *)
Definition raw_rows_of (vid : string) (db : database) : list raw_row :=
  filter (λ r, raw_video_id r = vid) (raw_youtube_videos db).

(** An environment in which no storage call fails. *)
Definition reliable (ac : bool) (tts : string → Z) (now : Z) : environment :=
  {| autocommit := ac; faults := λ _, false;
     to_timestamp := tts; current_timestamp := now |}.

(** A client on which every statement outside the query loop succeeds:
    [fmt] is the rendering that [strftime] gives and [search] the API
    that [build] returns. *)
Definition dependable (fmt : Z → string)
           (search : string → string → api_result) : client :=
  {| import_build := true;
     strftime := λ t, Some (fmt t);
     build := Some search;
     xcom_push_videos := λ _, true;
     xcom_push_video_count := λ _, true |}.

(** Successive runs of [load_bronze], each in its own environment, on
    the tables the previous run left. *)
Fixpoint load_runs (runs : list (environment * option (list video)))
         (db : database) : database :=
  match runs with
  | [] => db
  | (env, videos) :: runs' =>
      load_runs runs' (tables (run (load_bronze env videos) db))
  end.

(** ** Concrete inputs *)

Definition digit_value (c : ascii) : option Z :=
  let n := N_of_ascii c in
  if ((48 <=? n) && (n <=? 57))%N then Some (Z.of_N n - 48) else None.

Fixpoint int_of_digits_from (acc : Z) (s : string) : option Z :=
  match s with
  | EmptyString => Some acc
  | String c s' => d ← digit_value c; int_of_digits_from (10 * acc + d) s'
  end.

(** Python's [int] on a non-empty run of ASCII digits.  The other
    spellings [int] accepts (a sign, surrounding blanks, underscores) do
    not occur in the inputs below and are read as errors here. *)
Definition int_of_digits (s : string) : option Z :=
  match s with
  | EmptyString => None
  | String _ _ => int_of_digits_from 0 s
  end.

(** Python's [str.lower] on a [str] of ASCII characters: the capitals
    [A] to [Z] move up by 32 and nothing else changes.  The inputs below
    are ASCII; on other text [str.lower] does more than this. *)
Definition lower_ascii_char (c : ascii) : ascii :=
  let n := N_of_ascii c in
  if ((65 <=? n) && (n <=? 90))%N then ascii_of_N (n + 32) else c.

Fixpoint lower_ascii (s : string) : string :=
  match s with
  | EmptyString => EmptyString
  | String c s' => String (lower_ascii_char c) (lower_ascii s')
  end.

(** The rendering of a watermark for the runs below: every instant is
    written as the same date. *)
Definition fixed_date (t : Z) : string := "2024-03-01T00:00:00Z".

Definition item_gel : item :=
  {| item_videoId := Some "abc123";
     item_title := Some "Marathon GEL review";
     item_description := Some "What I take on race day";
     item_channelTitle := Some "Run Channel";
     item_publishedAt := Some "2024-03-05T10:00:00Z" |}.

Definition item_split : item :=
  {| item_videoId := Some "spl001";
     item_title := Some "ba";
     item_description := Some "nana";
     item_channelTitle := Some "Run Channel";
     item_publishedAt := Some "2024-03-05T10:00:00Z" |}.

Definition item_sweet_potato : item :=
  {| item_videoId := Some "swp001";
     item_title := Some "Sweet";
     item_description := Some "Potato";
     item_channelTitle := Some "Run Channel";
     item_publishedAt := Some "2024-03-05T10:00:00Z" |}.

Definition item_no_channel : item :=
  {| item_videoId := Some "nch001";
     item_title := Some "Banana bread for runners";
     item_description := None;
     item_channelTitle := None;
     item_publishedAt := Some "2024-03-05T10:00:00Z" |}.

Definition item_no_title : item :=
  {| item_videoId := Some "ntl001";
     item_title := None;
     item_description := Some "pasta";
     item_channelTitle := Some "Run Channel";
     item_publishedAt := Some "2024-03-06T10:00:00Z" |}.

Definition item_oatmeal : item :=
  {| item_videoId := Some "oat001";
     item_title := Some "Oatmeal before a long run";
     item_description := Some "";
     item_channelTitle := Some "Trail Kitchen";
     item_publishedAt := Some "2024-03-07T08:30:00Z" |}.

Definition item_rice : item :=
  {| item_videoId := Some "ric001";
     item_title := Some "Rice cakes on the bike and on the run";
     item_description := Some "";
     item_channelTitle := Some "Trail Kitchen";
     item_publishedAt := Some "2024-03-08T08:30:00Z" |}.

Definition item_shoes : item :=
  {| item_videoId := Some "sho001";
     item_title := Some "Shoe rotation";
     item_description := Some "Which shoes I run in";
     item_channelTitle := Some "Run Channel";
     item_publishedAt := Some "2024-03-08T09:30:00Z" |}.

(** An API whose first query answers with a malformed item between two
    matching ones, whose second query answers well, and whose other
    queries raise. *)
Definition search_malformed (query : string) (published_after : string)
  : api_result :=
  if decide (query = "runner nutrition food")
  then Response [item_gel; item_no_title; item_oatmeal]
  else if decide (query = "marathon nutrition")
  then Response [item_rice]
  else RequestError.

(** An API on which two of the five queries raise and three answer. *)
Definition search_two_down (query : string) (published_after : string)
  : api_result :=
  if decide (query = "runner nutrition food")
  then Response [item_gel; item_shoes]
  else if decide (query = "running diet")
  then Response [item_oatmeal; item_gel]
  else if decide (query = "what runners eat")
  then Response [item_rice]
  else RequestError.

Definition video_a : video :=
  {| video_id := "abc123"; title := "Marathon GEL review";
     description := "What I take on race day"; channel_title := "Run Channel";
     published_at := "2024-03-05 10:00:00";
     url := "https://youtube.com/watch?v=abc123";
     mentioned_foods := "gel"; year := 2024 |}.

Definition video_b : video :=
  {| video_id := "oat001"; title := "Oatmeal before a long run";
     description := ""; channel_title := "Trail Kitchen";
     published_at := "2024-03-07 08:30:00";
     url := "https://youtube.com/watch?v=oat001";
     mentioned_foods := "oatmeal"; year := 2024 |}.

Definition empty_db : database :=
  {| raw_youtube_videos := []; stg_processed_videos := [] |}.

(** Tables in which [video_a] has been loaded. *)
Definition db_with_a : database :=
  {| raw_youtube_videos :=
       [ {| raw_video_id := "abc123"; raw_title := "Marathon GEL review";
            raw_description := "What I take on race day";
            raw_channel_title := "Run Channel";
            raw_published_at := 1709632800;
            raw_url := "https://youtube.com/watch?v=abc123";
            raw_mentioned_foods := "gel"; raw_year := 2024 |} ];
     stg_processed_videos := [ProcessedRow "abc123" "SUCCESS"] |}.

(** A conversion of timestamps for the runs below: every string goes to
    the same instant. *)
Definition fixed_timestamp (s : string) : Z := 1709632800.

(** A transactional session whose sixth storage call raises, and an
    autocommit session with the same fault. *)
Definition env_transactional_fault : environment :=
  {| autocommit := false; faults := λ i, bool_decide (i = 5%nat);
     to_timestamp := fixed_timestamp; current_timestamp := 1710000000 |}.

Definition env_autocommit_fault : environment :=
  {| autocommit := true; faults := λ i, bool_decide (i = 5%nat);
     to_timestamp := fixed_timestamp; current_timestamp := 1710000000 |}.

(** A title of 600 characters, and a candidate that carries it. *)
Fixpoint string_repeat (c : ascii) (n : nat) : string :=
  match n with
  | O => EmptyString
  | S n' => String c (string_repeat c n')
  end.

Definition video_long_title : video :=
  {| video_id := "lng001"; title := string_repeat "x" 600;
     description := "banana"; channel_title := "Run Channel";
     published_at := "2024-03-09 10:00:00";
     url := "https://youtube.com/watch?v=lng001";
     mentioned_foods := "banana"; year := 2024 |}.

(** ** Retries and the run summary *)

(** [default_args['retries']]: a task that raises is run again, at most
    this many times. *)
Definition retries : nat := 2.

(** The attempts the scheduler makes of [load_bronze] on one batch, one
    environment per attempt: it stops at the first attempt that returns
    and gives up when the attempts are used up.  Each attempt starts
    from the tables the previous one left. *)
Fixpoint load_with_retries (envs : list environment)
         (videos : option (list video)) (db : database)
  : result Z * database :=
  match envs with
  | [] => (Exn, db)
  | env :: envs' =>
      let out := run (load_bronze env videos) db in
      match returned out, envs' with
      | Ok n, _ => (Ok n, tables out)
      | Exn, [] => (Exn, tables out)
      | Exn, _ :: _ => load_with_retries envs' videos (tables out)
      end
  end.

(** The tables when the first [j] videos of [l] have been loaded and,
    if [b] is set, the MERGE of the next one has been executed too. *)
Definition partial_load (env : environment) (db : database) (l : list video)
           (j : nat) (b : bool) : database :=
  let d := load_videos env (take j l) db in
  if b then
    match l !! j with
    | Some v => apply_write (MergeRaw (raw_row_of_video env v)) d
    | None => d
    end
  else d.

(** The identifiers of the raw store. *)
Definition raw_ids (db : database) : list string :=
  raw_video_id <$> raw_youtube_videos db.

(** The ledger entry written for a video. *)
Definition processed_row_of_video (v : video) : processed_row :=
  ProcessedRow (video_id v) "SUCCESS".

(** [c * n] for a one-character string [c] *)
Fixpoint repeat_char (c : ascii) (n : nat) : string :=
  match n with
  | O => EmptyString
  | S n' => String c (repeat_char c n')
  end.

(** Task 8, [pipeline_summary] (lines 396-410): the lines it logs.  The
    arguments are what the three [xcom_pull] calls return, [None] when
    nothing was pushed; [x or d] is [d] when [x] is [None], [0] or the
    empty list.  An [int] is rendered in decimal by the f-string. *)
Definition pipeline_summary (video_count total_videos : option Z)
           (top_foods : option (list string)) : list string :=
  let video_count := default 0 video_count in
  let total_videos := default 0 total_videos in
  let top_foods := default [] top_foods in
  [ repeat_char "=" 50;
    "RUNNER NUTRITION PIPELINE COMPLETE";
    repeat_char "=" 50;
    "New videos today:   " +:+ pretty video_count;
    "Total videos in DB: " +:+ pretty total_videos;
    "Top foods:          " +:+ Str.join ", " top_foods;
    repeat_char "=" 50 ].

(** A session in autocommit mode whose fifth storage call raises: the
    ledger insert of the first video of a batch. *)
Definition env_autocommit_fault_insert : environment :=
  {| autocommit := true; faults := λ i, bool_decide (i = 4%nat);
     to_timestamp := fixed_timestamp; current_timestamp := 1710000000 |}.

(** [item_gel] with its title and description in another case. *)
Definition item_gel_capitals : item :=
  {| item_videoId := Some "abc123";
     item_title := Some "MARATHON Gel REVIEW";
     item_description := Some "WHAT I TAKE ON RACE DAY";
     item_channelTitle := Some "Run Channel";
     item_publishedAt := Some "2024-03-05T10:00:00Z" |}.

(** ** Properties of the string operations *)

Lemma starts_with_spec p s :
  Str.starts_with p s = true ↔ ∃ b, s = p +:+ b.
Proof.
  revert s. induction p as [|a p IH]; intros s; simpl.
  - split; [intros _; by exists s | done].
  - destruct s as [|c s]; simpl.
    + split; [done | intros [b Hb]; discriminate].
    + rewrite andb_true_iff, bool_decide_eq_true, IH. split.
      * intros [-> [b ->]]. by exists b.
      * intros [b Hb]. injection Hb as -> ->. eauto.
Qed.

Lemma contains_spec p s : Str.contains p s = true ↔ is_substring p s.
Proof.
  unfold is_substring. induction s as [|c s IH]; simpl.
  - rewrite orb_false_r, starts_with_spec. split.
    + intros [b Hb]. by exists "", b.
    + intros ([|x a] & b & Hab); simpl in Hab; [eauto | discriminate].
  - rewrite orb_true_iff, starts_with_spec, IH. split.
    + intros [[b Hb] | (a & b & ->)].
      * by exists "", b.
      * by exists (String c a), b.
    + intros ([|x a] & b & Hab); simpl in Hab.
      * left. eauto.
      * right. injection Hab as -> ->. eauto.
Qed.

Lemma take_length n s :
  Str.len (Str.take n s) = Nat.min n (Str.len s).
Proof.
  revert n. induction s as [|c s IH]; intros n; cbn [Str.take Str.len].
  - by destruct n.
  - destruct (Str.continuation c) eqn:Hc.
    + cbn [Str.len]. rewrite Hc. apply IH.
    + destruct n as [|n]; [done|]. cbn [Str.len]. rewrite Hc, IH. done.
Qed.

Lemma take_prefix n s : ∃ b, s = Str.take n s +:+ b.
Proof.
  revert n. induction s as [|c s IH]; intros n; cbn [Str.take].
  - by exists "".
  - destruct (Str.continuation c).
    + destruct (IH n) as [b Hb]. exists b. exact (f_equal (String c) Hb).
    + destruct n as [|n]; [by exists (String c s)|].
      destruct (IH n) as [b Hb]. exists b. exact (f_equal (String c) Hb).
Qed.

(** ** The de-duplication *)

Lemma dedup_loop_app l seen acc :
  dedup_loop l seen acc = acc ++ dedup_loop l seen [].
Proof.
  revert seen acc. induction l as [|v l IH]; intros seen acc; simpl.
  - by rewrite app_nil_r.
  - case_decide; [apply IH|].
    rewrite (IH _ (acc ++ [v])), (IH _ ([] ++ [v])). by rewrite <-app_assoc.
Qed.

Lemma dedup_loop_cons v l seen :
  dedup_loop (v :: l) seen [] =
  if decide (video_id v ∈ seen) then dedup_loop l seen []
  else v :: dedup_loop l ({[video_id v]} ∪ seen) [].
Proof. simpl. case_decide; [done|]. by rewrite dedup_loop_app. Qed.

Lemma dedup_loop_ids l seen vid :
  vid ∈ video_id <$> dedup_loop l seen [] ↔ vid ∈ video_id <$> l ∧ vid ∉ seen.
Proof.
  revert seen. induction l as [|v l IH]; intros seen.
  - simpl. set_solver.
  - rewrite dedup_loop_cons. case_decide.
    + rewrite IH. set_solver.
    + rewrite !fmap_cons, !elem_of_cons, IH.
      destruct (decide (vid = video_id v)); set_solver.
Qed.

Lemma dedup_loop_NoDup l seen : NoDup (video_id <$> dedup_loop l seen []).
Proof.
  revert seen. induction l as [|v l IH]; intros seen.
  - constructor.
  - rewrite dedup_loop_cons. case_decide; [apply IH|].
    rewrite fmap_cons. constructor; [|apply IH].
    rewrite dedup_loop_ids. set_solver.
Qed.

Lemma first_with_id_Some vid l v :
  first_with_id vid l = Some v → video_id v = vid ∧ v ∈ l.
Proof.
  induction l as [|w l IH]; simpl; [done|].
  case_decide; [intros [= ->]|]; set_solver.
Qed.

Lemma dedup_loop_first l seen v :
  v ∈ dedup_loop l seen [] ↔
  first_with_id (video_id v) l = Some v ∧ video_id v ∉ seen.
Proof.
  revert seen. induction l as [|w l IH]; intros seen.
  - simpl. split; [by intros ?%elem_of_nil | by intros [? _]].
  - rewrite dedup_loop_cons. simpl. case_decide as Hseen.
    + rewrite IH. case_decide as Heq; [|done]. split.
      * intros [_ Hv]. by rewrite <-Heq in Hv.
      * intros [[= ->] Hv]. done.
    + rewrite elem_of_cons, IH. case_decide as Heq.
      * split.
        -- intros [->|[_ Hv]]; [done|]. set_solver.
        -- intros [[= ->] _]. by left.
      * split.
        -- intros [->|[Hf Hv]]; [done|]. set_solver.
        -- intros [Hf Hv]. right. split; [done|]. set_solver.
Qed.

Lemma dedup_loop_sublist l seen : dedup_loop l seen [] `sublist_of` l.
Proof.
  revert seen. induction l as [|v l IH]; intros seen; [done|].
  rewrite dedup_loop_cons. case_decide.
  - by apply sublist_cons.
  - by apply sublist_skip.
Qed.

(** C4. For every list of candidate records, duplicates allowed, the
    de-duplication returns exactly one record per distinct identifier
    of the input: the identifiers of the output are pairwise distinct
    and are those of the input, the output keeps the input order, and a
    record is in the output exactly when it is the first record of the
    input with its identifier. *)
Theorem deduplicate_first_occurrence (all_videos : list video) :
  NoDup (video_id <$> deduplicate all_videos)
  ∧ (∀ vid, vid ∈ video_id <$> deduplicate all_videos
            ↔ vid ∈ video_id <$> all_videos)
  ∧ (∀ v, v ∈ deduplicate all_videos
          ↔ first_with_id (video_id v) all_videos = Some v)
  ∧ deduplicate all_videos `sublist_of` all_videos.
Proof.
  unfold deduplicate. split_and!.
  - apply dedup_loop_NoDup.
  - intros vid. rewrite dedup_loop_ids. set_solver.
  - intros v. rewrite dedup_loop_first. set_solver.
  - apply dedup_loop_sublist.
Qed.

(** ** The keyword filter *)

Lemma matched_keywords_spec text f :
  f ∈ matched_keywords text ↔ f ∈ FOOD_KEYWORDS ∧ is_substring f text.
Proof.
  unfold matched_keywords. rewrite list_elem_of_filter, contains_spec. tauto.
Qed.

Lemma matched_keywords_nil text :
  matched_keywords text = [] ↔ ¬ ∃ f, f ∈ FOOD_KEYWORDS ∧ is_substring f text.
Proof.
  split.
  - intros Hnil (f & Hf). apply matched_keywords_spec in Hf.
    rewrite Hnil in Hf. by apply elem_of_nil in Hf.
  - intros Hno. destruct (matched_keywords text) as [|f l] eqn:Hm; [done|].
    destruct Hno. exists f. apply matched_keywords_spec. rewrite Hm. by left.
Qed.

(** An item that carries the fields the loop reads is kept or skipped,
    according to whether its text holds a keyword. *)
Lemma process_item_well_formed py_lower py_int it :
  item_well_formed py_int it = true →
  let text := item_text py_lower it in
  match process_item py_lower py_int it with
  | Kept v =>
      (∃ f, f ∈ FOOD_KEYWORDS ∧ is_substring f text)
      ∧ mentioned_foods v = Str.join "," (matched_keywords text)
      ∧ Some (video_id v) = item_videoId it
      ∧ Some (title v) = item_title it
  | Skipped => ¬ ∃ f, f ∈ FOOD_KEYWORDS ∧ is_substring f text
  | Raised => False
  end.
Proof.
  intros Hwf text. subst text. unfold item_text.
  unfold item_well_formed in Hwf. unfold process_item.
  destruct (item_videoId it) as [vid|]; [|done].
  destruct (item_title it) as [ttl|]; [|done].
  destruct (item_channelTitle it) as [chan|]; [|done].
  destruct (item_publishedAt it) as [pub|]; [|done].
  apply bool_decide_eq_true in Hwf as [y Hy]. rewrite Hy.
  cbn [default id].
  set (text := search_text py_lower ttl (default "" (item_description it))).
  destruct (matched_keywords text) as [|f l] eqn:Hm.
  - by apply matched_keywords_nil.
  - simpl. split_and!; try done.
    exists f. apply matched_keywords_spec. rewrite Hm. by left.
Qed.

(** ** The query loop *)

Lemma process_items_videos py_lower py_int items acc :
  (process_items py_lower py_int items acc).2 =
  acc ++ matching_videos py_lower py_int (items_before_error py_lower py_int items).
Proof.
  revert acc. induction items as [|it items IH]; intros acc; simpl.
  - by rewrite app_nil_r.
  - unfold matching_videos in *. destruct (process_item py_lower py_int it) eqn:Hp; simpl.
    + by rewrite app_nil_r.
    + rewrite Hp. apply IH.
    + rewrite Hp, IH. by rewrite <-app_assoc.
Qed.

Lemma process_items_completed py_lower py_int items acc :
  (process_items py_lower py_int items acc).1 = true →
  items_before_error py_lower py_int items = items.
Proof.
  revert acc. induction items as [|it items IH]; intros acc; simpl; [done|].
  destruct (process_item py_lower py_int it); [done| |]; intros ?%IH; by f_equal.
Qed.

Lemma fetch_query_videos py_lower py_int search w acc q :
  (fetch_query py_lower py_int search w acc q).2 =
  acc ++ query_videos py_lower py_int search w q.
Proof.
  unfold fetch_query, query_videos. destruct (search q w); simpl.
  - by rewrite app_nil_r.
  - apply process_items_videos.
Qed.

Lemma process_items_flag py_lower py_int items acc acc' :
  (process_items py_lower py_int items acc).1 = (process_items py_lower py_int items acc').1.
Proof.
  revert acc acc'. induction items as [|it items IH]; intros acc acc'; [done|].
  simpl. destruct (process_item py_lower py_int it); auto.
Qed.

Lemma fetch_query_flag py_lower py_int search w acc q :
  (fetch_query py_lower py_int search w acc q).1 = negb (query_fails py_lower py_int search w q).
Proof.
  unfold query_fails. rewrite negb_involutive. unfold fetch_query.
  destruct (search q w); [done|]. apply process_items_flag.
Qed.

Lemma fetch_loop_spec py_lower py_int search w queries acc logged :
  foldl (λ '(all_videos, logged) query,
           let '(completed, all_videos') :=
             fetch_query py_lower py_int search w all_videos query in
           (all_videos', if completed then logged else logged ++ [query]))
        (acc, logged) queries
  = (acc ++ (queries ≫= query_videos py_lower py_int search w),
     logged ++ filter (λ q, query_fails py_lower py_int search w q = true) queries).
Proof.
  revert acc logged.
  induction queries as [|q queries IH]; intros acc logged.
  - by rewrite !app_nil_r.
  - cbn [foldl].
    pose proof (fetch_query_videos py_lower py_int search w acc q) as Hv.
    pose proof (fetch_query_flag py_lower py_int search w acc q) as Hf.
    destruct (fetch_query py_lower py_int search w acc q) as [completed acc'].
    cbn [fst snd] in Hv, Hf. subst acc' completed.
    rewrite IH, bind_cons, filter_cons, <-app_assoc.
    destruct (query_fails py_lower py_int search w q); cbn [negb].
    + rewrite decide_True by done. by rewrite <-app_assoc.
    + rewrite decide_False by done. done.
Qed.

Lemma fetch_all_videos py_lower py_int search w queries :
  fetch_all py_lower py_int search w queries
  = (queries ≫= query_videos py_lower py_int search w,
     filter (λ q, query_fails py_lower py_int search w q = true) queries).
Proof. unfold fetch_all. by rewrite fetch_loop_spec. Qed.

Lemma query_videos_completed py_lower py_int search w q items :
  search q w = Response items →
  query_fails py_lower py_int search w q = false →
  query_videos py_lower py_int search w q = matching_videos py_lower py_int items.
Proof.
  unfold query_fails, query_videos, fetch_query. intros ->.
  intros Hc%negb_false_iff. by rewrite (process_items_completed _ _ _ _ Hc).
Qed.

(** ** The keyword filter in the query loop *)

Lemma elem_of_matching_videos py_lower py_int items v :
  v ∈ matching_videos py_lower py_int items
  ↔ ∃ it, it ∈ items ∧ process_item py_lower py_int it = Kept v.
Proof.
  unfold matching_videos. rewrite list_elem_of_omap. split.
  - intros (it & Hit & Hp). exists it. split; [done|].
    by destruct (process_item py_lower py_int it); simplify_eq.
  - intros (it & Hit & Hp). exists it. by rewrite Hp.
Qed.

Lemma elem_of_fetch_all py_lower py_int search w queries v :
  v ∈ (fetch_all py_lower py_int search w queries).1
  ↔ ∃ q items it,
      q ∈ queries ∧ search q w = Response items
      ∧ it ∈ items_before_error py_lower py_int items
      ∧ process_item py_lower py_int it = Kept v.
Proof.
  rewrite fetch_all_videos. cbn [fst]. rewrite list_elem_of_bind. split.
  - intros (q & Hv & Hq). unfold query_videos in Hv.
    destruct (search q w) as [|items] eqn:Hs; [by apply elem_of_nil in Hv|].
    apply elem_of_matching_videos in Hv as (it & Hit & Hp).
    by exists q, items, it.
  - intros (q & items & it & Hq & Hs & Hit & Hp). exists q. split; [|done].
    unfold query_videos. rewrite Hs. apply elem_of_matching_videos.
    by exists it.
Qed.

(** The loop reads an item when no item before it in the response
    raised, and goes on after it when it does not raise itself. *)
Lemma items_before_error_reached py_lower py_int items i it :
  items !! i = Some it →
  (∀ j it', (j < i)%nat → items !! j = Some it' →
            process_item py_lower py_int it' ≠ Raised) →
  process_item py_lower py_int it ≠ Raised →
  it ∈ items_before_error py_lower py_int items.
Proof.
  revert i. induction items as [|it0 items IH]; intros i Hi Hbefore Hit;
    [done|].
  destruct i as [|i]; cbn [items_before_error].
  - injection Hi as ->.
    destruct (process_item py_lower py_int it); [done | by left | by left].
  - assert (process_item py_lower py_int it0 ≠ Raised) as H0.
    { apply (Hbefore 0%nat); [lia | done]. }
    assert (it ∈ items_before_error py_lower py_int items) as Hin.
    { apply (IH i); [done | | done].
      intros j it' Hj Hl. apply (Hbefore (S j)); [lia | done]. }
    destruct (process_item py_lower py_int it0); [done | by right | by right].
Qed.

Lemma process_item_kept_keyword py_lower py_int it v :
  process_item py_lower py_int it = Kept v →
  ∃ f, f ∈ FOOD_KEYWORDS ∧ is_substring f (item_text py_lower it).
Proof.
  unfold process_item, item_text.
  destruct (item_title it) as [ttl|]; [|done]. cbn [default id].
  set (text := search_text py_lower ttl (default "" (item_description it))).
  destruct (matched_keywords text) as [|f l] eqn:Hm; [done|]. intros _.
  exists f. apply matched_keywords_spec. rewrite Hm. by left.
Qed.

(** C7, amended. For every item of a response that the loop reaches (no
    item before it in the response raises) and that carries the fields
    the loop reads, a record of the item is appended if and only if the
    text made of its lower-cased title, one space and its lower-cased
    description contains a configured keyword as a substring; the record
    holds the matched keywords, in configuration order and joined by
    commas, and after the de-duplication the result holds a record with
    the item's identifier, the item's own exactly when it is the first
    appended with that identifier.  Records are appended for no other
    items than those that are kept and come before the first item of
    their response that raises, and every record of the result comes
    from an item whose text contains a keyword. *)
Theorem keyword_filter (py_lower : string → string)
        (py_int : string → option Z)
        (search : string → string → api_result) (published_after : string)
        (queries : list string) (q : string) (items : list item)
        (i : nat) (it : item) :
  q ∈ queries →
  search q published_after = Response items →
  items !! i = Some it →
  (∀ j it', (j < i)%nat → items !! j = Some it' →
            process_item py_lower py_int it' ≠ Raised) →
  item_well_formed py_int it = true →
  let text := py_lower (default "" (item_title it)) +:+ " "
              +:+ py_lower (default "" (item_description it)) in
  let all_videos :=
    (fetch_all py_lower py_int search published_after queries).1 in
  let output := deduplicate all_videos in
  (∀ f, f ∈ matched_keywords text ↔ f ∈ FOOD_KEYWORDS ∧ is_substring f text)
  ∧ matched_keywords text `sublist_of` FOOD_KEYWORDS
  ∧ match process_item py_lower py_int it with
    | Kept v =>
        (∃ f, f ∈ FOOD_KEYWORDS ∧ is_substring f text)
        ∧ mentioned_foods v = Str.join "," (matched_keywords text)
        ∧ Some (video_id v) = item_videoId it
        ∧ Some (title v) = item_title it
        ∧ v ∈ all_videos
        ∧ video_id v ∈ video_id <$> output
        ∧ (v ∈ output ↔ first_with_id (video_id v) all_videos = Some v)
    | Skipped => ¬ ∃ f, f ∈ FOOD_KEYWORDS ∧ is_substring f text
    | Raised => False
    end
  ∧ (∀ v, v ∈ all_videos ↔
          ∃ q' items' it',
            q' ∈ queries ∧ search q' published_after = Response items'
            ∧ it' ∈ items_before_error py_lower py_int items'
            ∧ process_item py_lower py_int it' = Kept v)
  ∧ (∀ v, v ∈ output →
          ∃ q' items' it',
            q' ∈ queries ∧ search q' published_after = Response items'
            ∧ it' ∈ items'
            ∧ process_item py_lower py_int it' = Kept v
            ∧ ∃ f, f ∈ FOOD_KEYWORDS
                   ∧ is_substring f (item_text py_lower it')).
Proof.
  intros Hq Hs Hi Hbefore Hwf text all_videos output.
  change text with (item_text py_lower it).
  split_and!.
  - apply matched_keywords_spec.
  - apply sublist_filter.
  - pose proof (process_item_well_formed py_lower py_int it Hwf) as Hp.
    cbn zeta in Hp.
    destruct (process_item py_lower py_int it) as [| |v] eqn:Hpi; [done..|].
    destruct Hp as (Hf & Hm & Hid & Httl).
    assert (v ∈ all_videos) as Hin.
    { apply elem_of_fetch_all. exists q, items, it. split_and!; try done.
      eapply items_before_error_reached; [done..|]. by rewrite Hpi. }
    split_and!; try done.
    + unfold output, deduplicate. rewrite dedup_loop_ids.
      split; [by apply list_elem_of_fmap_2 | set_solver].
    + unfold output, deduplicate. rewrite dedup_loop_first. set_solver.
  - intros v. apply elem_of_fetch_all.
  - intros v Hv.
    assert (v ∈ all_videos) as Hin.
    { apply dedup_loop_first in Hv as [Hv _].
      by apply first_with_id_Some in Hv as [_ Hv]. }
    apply elem_of_fetch_all in Hin as (q' & items' & it' & ? & ? & Hit & Hp).
    exists q', items', it'. split_and!; try done.
    + clear -Hit. induction items' as [|x l IH]; [done|].
      cbn [items_before_error] in Hit.
      destruct (process_item py_lower py_int x);
        [by apply elem_of_nil in Hit| |];
        apply elem_of_cons in Hit as [-> | Hit]; (by left) || (right; auto).
    + by eapply process_item_kept_keyword.
Qed.

Lemma keyword_filter_witness :
  "running diet" ∈ SEARCH_QUERIES
  ∧ search_two_down "running diet" "2024-03-01T00:00:00Z"
    = Response [item_oatmeal; item_gel]
  ∧ item_well_formed int_of_digits item_gel = true
  ∧ ∃ v, process_item lower_ascii int_of_digits item_gel = Kept v
         ∧ mentioned_foods v = "gel"
         ∧ v ∈ (fetch_all lower_ascii int_of_digits search_two_down
                          "2024-03-01T00:00:00Z" SEARCH_QUERIES).1.
Proof.
  assert ("running diet" ∈ SEARCH_QUERIES) as Hq
    by (unfold SEARCH_QUERIES; set_solver).
  split; [exact Hq|]. split; [reflexivity|]. split; [reflexivity|].
  assert (∀ j it', (j < 1)%nat → [item_oatmeal; item_gel] !! j = Some it' →
            process_item lower_ascii int_of_digits it' ≠ Raised) as Hbefore.
  { intros [|j] it' Hj Hl; [|lia]. injection Hl as <-.
    intros H. vm_compute in H. discriminate H. }
  pose proof (keyword_filter lower_ascii int_of_digits search_two_down
                "2024-03-01T00:00:00Z" SEARCH_QUERIES "running diet"
                [item_oatmeal; item_gel] 1%nat item_gel
                Hq eq_refl eq_refl Hbefore eq_refl) as (_ & _ & H & _).
  destruct (process_item lower_ascii int_of_digits item_gel) as [| |v] eqn:Hp;
    [done | discriminate Hp | ].
  exists v. destruct H as (_ & Hm & _ & _ & Hin & _).
  split; [done|]. split; [|exact Hin]. rewrite Hm. reflexivity.
Defined.

(** C7 as worded fails.  The code puts a space between the title and
    the description: the keyword [banana] occurs in the title and the
    description put end to end, but the item is not kept; no keyword
    occurs in [sweetpotato], but the item is kept, for [sweet potato].
    An item that matches but lacks its channel name is not kept.  And an
    item that matches and carries every field is not kept when it comes
    after a malformed item of its response. *)
Lemma keyword_filter_counterexample :
  ¬ ((∃ v, process_item lower_ascii int_of_digits item_split = Kept v)
     ↔ (∃ f, f ∈ FOOD_KEYWORDS
             ∧ is_substring f (concatenated_text lower_ascii "ba" "nana")))
  ∧ ¬ ((∃ v, process_item lower_ascii int_of_digits item_sweet_potato = Kept v)
       ↔ (∃ f, f ∈ FOOD_KEYWORDS
               ∧ is_substring f
                   (concatenated_text lower_ascii "Sweet" "Potato")))
  ∧ ((∃ f, f ∈ FOOD_KEYWORDS
           ∧ is_substring f
               (search_text lower_ascii "Banana bread for runners" ""))
     ∧ process_item lower_ascii int_of_digits item_no_channel = Raised)
  ∧ ((∃ f, f ∈ FOOD_KEYWORDS
           ∧ is_substring f
               (concatenated_text lower_ascii "Oatmeal before a long run" ""))
     ∧ search_malformed "runner nutrition food" "2024-03-01T00:00:00Z"
       = Response [item_gel; item_no_title; item_oatmeal]
     ∧ item_well_formed int_of_digits item_oatmeal = true
     ∧ "oat001" ∉ video_id <$>
         deduplicate (fetch_all lower_ascii int_of_digits search_malformed
                                "2024-03-01T00:00:00Z" SEARCH_QUERIES).1).
Proof.
  split_and!.
  - intros [_ H]. destruct H as [v Hv]; [|discriminate Hv].
    exists "banana". split; [|by exists "", ""].
    unfold FOOD_KEYWORDS. set_solver.
  - intros [H _]. destruct H as (f & Hf & Hsub); [by eexists|].
    apply contains_spec in Hsub.
    assert (matched_keywords (concatenated_text lower_ascii "Sweet" "Potato")
            = []) as Hnone by reflexivity.
    assert (f ∈ matched_keywords
                  (concatenated_text lower_ascii "Sweet" "Potato")) as Hin
      by by apply list_elem_of_filter.
    rewrite Hnone in Hin. by apply elem_of_nil in Hin.
  - exists "banana". split; [unfold FOOD_KEYWORDS; set_solver|].
    by exists "", " bread for runners ".
  - reflexivity.
  - exists "oatmeal". split; [unfold FOOD_KEYWORDS; set_solver|].
    by exists "", " before a long run".
  - reflexivity.
  - reflexivity.
  - assert (video_id <$>
              deduplicate (fetch_all lower_ascii int_of_digits
                             search_malformed "2024-03-01T00:00:00Z"
                             SEARCH_QUERIES).1
            = ["abc123"; "ric001"]) as -> by (vm_compute; reflexivity).
    rewrite !elem_of_cons, elem_of_nil. by intros [? | [? | []]].
Qed.

(** ** The watermark reader *)

Lemma max_published_at_spec rows :
  match max_published_at rows with
  | None => rows = []
  | Some m =>
      (∃ r, r ∈ rows ∧ raw_published_at r = m)
      ∧ ∀ r, r ∈ rows → raw_published_at r ≤ m
  end.
Proof.
  induction rows as [|r rows IH]; simpl; [done|].
  destruct (max_published_at rows) as [m|].
  - destruct IH as [(r' & Hr' & Hm) Hle]. split.
    + destruct (Z.max_spec (raw_published_at r) m) as [[_ ->]|[_ ->]].
      * exists r'. split; [by right | done].
      * exists r. split; [by left | done].
    + intros r0 [->|Hr0%Hle]%elem_of_cons; lia.
  - subst rows. split.
    + exists r. split; [by left | done].
    + intros r0 [->|[]%elem_of_nil]%elem_of_cons. lia.
Qed.

(** C6. When no storage call fails, the watermark reader returns the
    greatest publication timestamp of the rows of the raw store when
    there is at least one row, and the current time minus seven days
    when there is none; it only reads. *)
Theorem watermark_reader_spec (ac : bool) (tts : string → Z) (now : Z)
        (db : database) :
  ∃ w,
    run (watermark_reader (reliable ac tts now)) db =
      (Ok w, db, [Connect; OpenCursor; Execute SelectWatermark;
                  CloseCursor; CloseConnection])
    ∧ match raw_youtube_videos db with
      | [] => w = now - 7 * 86400
      | _ :: _ =>
          (∃ r, r ∈ raw_youtube_videos db ∧ raw_published_at r = w)
          ∧ ∀ r, r ∈ raw_youtube_videos db → raw_published_at r ≤ w
      end.
Proof.
  exists (default (now - 7 * 86400) (max_published_at (raw_youtube_videos db))).
  split; [reflexivity|].
  pose proof (max_published_at_spec (raw_youtube_videos db)) as H.
  destruct (raw_youtube_videos db) as [|r rows] eqn:Hrows; [done|].
  by destruct (max_published_at (r :: rows)).
Qed.

(** ** The source fetcher under failing queries *)

Lemma bind_all_nil {A B} (f : A → list B) (l : list A) :
  (∀ x, x ∈ l → f x = []) → l ≫= f = [].
Proof.
  induction l as [|x l IH]; intros H; [done|].
  rewrite bind_cons, H, IH; [done| |by left].
  intros y Hy. apply H. by right.
Qed.

(** C5, amended. Whatever the queries do, the fetch does not raise: a
    query whose request raises adds nothing, a query whose [try] block
    completes adds all its matching items, and a query that raises while
    its items are read adds the matching items that come before the item
    that raised; every query whose [try] block raises is logged; the
    result is the de-duplication of what the queries added, and it is
    empty, not an error, when every request raises.  The watermark the
    requests carry is the one read from the warehouse, as [strftime]
    renders it. *)
Theorem fetch_tolerates_query_failures (py_lower : string → string)
        (py_int : string → option Z)
        (search : string → string → api_result) (fmt : Z → string)
        (ac : bool) (tts : string → Z) (now : Z) (db : database) :
  let w := fmt (default (now - 7 * 86400)
                        (max_published_at (raw_youtube_videos db))) in
  let unique :=
    deduplicate (SEARCH_QUERIES ≫= query_videos py_lower py_int search w) in
  run (extract_youtube (reliable ac tts now) py_lower py_int
                       (dependable fmt search)) db =
    (Ok (unique, Z.of_nat (length unique)), db,
     [Connect; OpenCursor; Execute SelectWatermark;
      CloseCursor; CloseConnection])
  ∧ (fetch_all py_lower py_int search w SEARCH_QUERIES).2
    = filter (λ q, query_fails py_lower py_int search w q = true) SEARCH_QUERIES
  ∧ (∀ q, search q w = RequestError →
       query_fails py_lower py_int search w q = true
       ∧ query_videos py_lower py_int search w q = [])
  ∧ (∀ q items, search q w = Response items →
       query_fails py_lower py_int search w q = false →
       query_videos py_lower py_int search w q = matching_videos py_lower py_int items)
  ∧ (∀ q items, search q w = Response items →
       query_videos py_lower py_int search w q =
         matching_videos py_lower py_int (items_before_error py_lower py_int items))
  ∧ ((∀ q, q ∈ SEARCH_QUERIES → search q w = RequestError) → unique = []).
Proof.
  intros w unique. split_and!.
  - unfold unique.
    replace (SEARCH_QUERIES ≫= query_videos py_lower py_int search w)
      with (fetch_all py_lower py_int search w SEARCH_QUERIES).1
      by by rewrite fetch_all_videos.
    reflexivity.
  - by rewrite fetch_all_videos.
  - intros q Hq. unfold query_fails, fetch_query, query_videos. by rewrite Hq.
  - intros q items. apply query_videos_completed.
  - intros q items Hq. unfold query_videos. by rewrite Hq.
  - intros Hall. unfold unique. rewrite bind_all_nil; [done|].
    intros q Hq. unfold query_videos. by rewrite (Hall q Hq).
Qed.

(** C5 as worded fails: a query answers with a matching item, a
    malformed item and another matching item.  Its [try] block raises,
    yet its first item is in the result; and its third item is not,
    though the request itself succeeded. *)
Lemma fetch_partial_query_counterexample :
  let fetched :=
    deduplicate
      (fetch_all lower_ascii int_of_digits search_malformed
                 "2024-03-01T00:00:00Z" SEARCH_QUERIES).1 in
  query_fails lower_ascii int_of_digits search_malformed
              "2024-03-01T00:00:00Z" "runner nutrition food" = true
  ∧ query_fails lower_ascii int_of_digits search_malformed
                "2024-03-01T00:00:00Z" "marathon nutrition" = false
  ∧ video_id <$> fetched = ["abc123"; "ric001"]
  ∧ fetched ≠ deduplicate
                (successful_union lower_ascii int_of_digits search_malformed
                                  "2024-03-01T00:00:00Z" SEARCH_QUERIES)
  ∧ fetched ≠ deduplicate
                (answered_union lower_ascii int_of_digits search_malformed
                                "2024-03-01T00:00:00Z" SEARCH_QUERIES).
Proof.
  split_and!; [reflexivity | reflexivity | by vm_compute | |];
    intros H; vm_compute in H; discriminate H.
Qed.

(** Two of the five queries raise and three answer with well-formed
    items: the task returns the three answers' matching items, each
    identifier once. *)
Example extract_two_queries_down :
  (run (extract_youtube (reliable false fixed_timestamp 1710000000)
                        lower_ascii int_of_digits
                        (dependable fixed_date search_two_down)) empty_db).1.1
  = Ok (deduplicate (answered_union lower_ascii int_of_digits search_two_down
                                    "2024-03-01T00:00:00Z" SEARCH_QUERIES),
        3).
Proof. vm_compute. reflexivity. Qed.

(** ** Equations of the session monad *)

Lemma bind_run {A B} (m : M A) (k : A → M B) (s : session) :
  (m ≫= k) s =
  match m s with
  | (Ok a, s') => k a s'
  | (Exn, s') => (Exn, s')
  end.
Proof. reflexivity. Qed.

Lemma ret_run {A} (a : A) (s : session) : (mret a : M A) s = (Ok a, s).
Proof. reflexivity. Qed.

Lemma storage_call_run env {A} (e : event)
      (effect : session → A * database * database) (s : session) :
  storage_call env e effect s =
  if faults env (length (trace s))
  then (Exn, {| persisted := persisted s; view := view s;
                trace := trace s ++ [e] |})
  else (Ok (effect s).1.1,
        {| persisted := (effect s).1.2; view := (effect s).2;
           trace := trace s ++ [e] |}).
Proof.
  unfold storage_call. destruct (faults env (length (trace s))); [done|].
  by destruct (effect s) as [[a p] v].
Qed.

Lemma execute_write_run env st s :
  execute_write env st s =
  if faults env (length (trace s))
  then (Exn, {| persisted := persisted s; view := view s;
                trace := trace s ++ [Execute st] |})
  else (Ok tt,
        {| persisted := if autocommit env then apply_write st (view s)
                        else persisted s;
           view := apply_write st (view s);
           trace := trace s ++ [Execute st] |}).
Proof. unfold execute_write. by rewrite storage_call_run. Qed.

(** ** The load loop *)

Lemma load_loop_nil env s : load_loop env [] s = (Ok tt, s).
Proof. reflexivity. Qed.

Lemma load_loop_cons env v l s :
  let m := MergeRaw (raw_row_of_video env v) in
  let i := InsertProcessed (video_id v) in
  let v1 := apply_write m (view s) in
  let v2 := apply_write i v1 in
  load_loop env (v :: l) s =
  if faults env (length (trace s))
  then (Exn, {| persisted := persisted s; view := view s;
                trace := trace s ++ [Execute m] |})
  else if faults env (S (length (trace s)))
  then (Exn, {| persisted := if autocommit env then v1 else persisted s;
                view := v1;
                trace := trace s ++ [Execute m; Execute i] |})
  else load_loop env l
         {| persisted := if autocommit env then v2 else persisted s;
            view := v2;
            trace := trace s ++ [Execute m; Execute i] |}.
Proof.
  intros m i v1 v2. unfold load_loop. cbn [for_each].
  rewrite !bind_run, execute_write_run.
  destruct (faults env (length (trace s))) eqn:F0; [done|].
  rewrite execute_write_run. cbn [trace view persisted].
  rewrite length_app, Nat.add_1_r. cbn [length].
  rewrite <-app_assoc. cbn [app].
  destruct (faults env (S (length (trace s)))) eqn:F1.
  - done.
  - fold m i v1 v2. by destruct (autocommit env).
Qed.

Lemma write_events_cons env v l :
  write_events env (v :: l) =
  Execute (MergeRaw (raw_row_of_video env v))
    :: Execute (InsertProcessed (video_id v)) :: write_events env l.
Proof. reflexivity. Qed.

Lemma write_events_length env l :
  length (write_events env l) = (2 * length l)%nat.
Proof.
  induction l as [|v l IH]; [done|].
  rewrite write_events_cons. cbn [length]. lia.
Qed.

(** How the loop ends from any session: [k] writes went through; an
    exception means that the next one raised. *)
Lemma load_loop_spec env l s r s' :
  load_loop env l s = (r, s') →
  let W := write_events env l in
  let n := length (trace s) in
  ∃ k, (k ≤ length W)%nat
    ∧ (∀ j, (j < k)%nat → faults env (n + j)%nat = false)
    ∧ view s' = apply_events (take k W) (view s)
    ∧ persisted s' =
        (if autocommit env
         then if decide (k = 0%nat) then persisted s else view s'
         else persisted s)
    ∧ match r with
      | Ok _ => k = length W ∧ trace s' = trace s ++ W
      | Exn => (k < length W)%nat
               ∧ faults env (n + k)%nat = true
               ∧ trace s' = trace s ++ take (S k) W
      end.
Proof.
  revert s. induction l as [|v l IH]; intros s.
  - rewrite load_loop_nil. intros [= <- <-]. exists 0%nat.
    cbn. split_and!; try done; try lia.
    + by destruct (autocommit env).
    + by rewrite app_nil_r.
  - rewrite load_loop_cons, write_events_cons. cbn zeta.
    set (m := MergeRaw (raw_row_of_video env v)).
    set (i := InsertProcessed (video_id v)).
    destruct (faults env (length (trace s))) eqn:F0.
    { intros [= <- <-]. exists 0%nat. cbn [length take persisted view trace].
      rewrite Nat.add_0_r.
      split_and!; try done; try lia; try (by destruct (autocommit env)). }
    destruct (faults env (S (length (trace s)))) eqn:F1.
    { intros [= <- <-]. exists 1%nat. cbn [length take persisted view trace].
      rewrite Nat.add_1_r. split_and!; try done; try lia;
        try (by destruct (autocommit env)).
      intros j Hj. by replace j with 0%nat by lia; rewrite Nat.add_0_r. }
    intros Hrun. apply IH in Hrun as (k & Hk & Hok & Hview & Hpers & Hend).
    cbn [persisted view trace] in *.
    rewrite length_app in Hok, Hend. cbn [length] in Hok, Hend.
    exists (S (S k)). cbn [length take]. split_and!.
    + lia.
    + intros j Hj. destruct j as [|[|j]].
      * by rewrite Nat.add_0_r.
      * by rewrite Nat.add_1_r.
      * replace (length (trace s) + S (S j))%nat
          with (length (trace s) + 2 + j)%nat by lia.
        apply Hok. lia.
    + done.
    + rewrite Hpers. destruct (autocommit env); [|done].
      rewrite (decide_False (P := S (S k) = 0%nat)) by lia.
      case_decide as Hk0; [|done]. subst k. by rewrite Hview.
    + destruct r.
      * destruct Hend as [-> ->]. split; [done|]. by rewrite <-app_assoc.
      * destruct Hend as (Hlt & Hf & ->). split_and!.
        -- lia.
        -- by replace (length (trace s) + S (S k))%nat
             with (length (trace s) + 2 + k)%nat by lia.
        -- by rewrite <-app_assoc.
Qed.

(** ** The runs of [load_bronze] *)

Lemma filter_ext_elem {A} (P Q : A → Prop) `{!∀ x, Decision (P x)}
      `{!∀ x, Decision (Q x)} (l : list A) :
  (∀ x, x ∈ l → P x ↔ Q x) → filter P l = filter Q l.
Proof.
  induction l as [|x l IH]; intros Hext; [done|].
  rewrite !filter_cons, IH by (intros y Hy; apply Hext; by right).
  destruct (decide (P x)) as [HP|HP], (decide (Q x)) as [HQ|HQ]; try done;
    destruct (Hext x); try (by left); tauto.
Qed.

(** The comprehension of line 221 selects the candidates whose
    identifier is not in the ledger. *)
Lemma new_videos_select db videos :
  filter (λ v, video_id v ∉
               (list_to_set
                  (filter (λ i, i ∈ video_id <$> videos)
                          (processed_video_id <$> stg_processed_videos db))
                : gset string)) videos
  = new_videos_of db videos.
Proof.
  apply filter_ext_elem. intros v Hv.
  rewrite elem_of_list_to_set, list_elem_of_filter.
  assert (video_id v ∈ video_id <$> videos) by by apply list_elem_of_fmap_2.
  unfold ledger_ids. tauto.
Qed.

Lemma apply_events_load_videos env l db :
  apply_events (write_events env l) db = load_videos env l db.
Proof.
  revert db. induction l as [|v l IH]; intros db; [done|].
  rewrite write_events_cons. cbn [apply_events foldl]. apply IH.
Qed.

Lemma load_bronze_nonempty env videos :
  videos ≠ [] →
  load_bronze env (Some videos) =
  (get_snowflake_connection env;;
   open_cursor;;
   rows ← execute_select_processed env (video_id <$> videos);
   let existing_ids : gset string := list_to_set rows in
   let new_videos := filter (λ v, video_id v ∉ existing_ids) videos in
   match new_videos with
   | [] => close_connection env;; mret 0
   | _ :: _ =>
       load_loop env new_videos;;
       commit env;;
       close_cursor;;
       close_connection env;;
       mret (Z.of_nat (length new_videos))
   end).
Proof. by destruct videos. Qed.

Lemma load_bronze_outcome env db videos :
  videos ≠ [] →
  load_outcome env db videos
    (run (load_bronze env (Some videos)) db).1.1
    (run (load_bronze env (Some videos)) db).1.2
    (run (load_bronze env (Some videos)) db).2.
Proof.
  intros Hvideos. unfold run. rewrite (load_bronze_nonempty _ _ Hvideos).
  match goal with |- context [?m {| persisted := db; view := db; trace := [] |}] =>
    destruct (m {| persisted := db; view := db; trace := [] |})
      as [r s] eqn:Hrun
  end.
  cbn [fst snd]. revert Hrun.
  rewrite bind_run. unfold get_snowflake_connection at 1.
  rewrite storage_call_run. cbn [trace length persisted view fst snd].
  destruct (faults env 0%nat) eqn:F0.
  { intros [= <- <-]. by apply connect_failed. }
  rewrite bind_run. unfold open_cursor at 1, local_call at 1.
  cbn [trace persisted view app].
  rewrite bind_run. unfold execute_select_processed.
  rewrite storage_call_run. cbn [trace length persisted view fst snd app].
  destruct (faults env 2%nat) eqn:F2.
  { intros [= <- <-]. by apply select_failed. }
  cbn zeta. rewrite new_videos_select.
  destruct (new_videos_of db videos) as [|n0 ns] eqn:Hnew.
  { rewrite bind_run. unfold close_connection. rewrite storage_call_run.
    cbn [trace length persisted view fst snd app].
    pose proof (nothing_new env db videos F0 F2 Hnew) as H.
    destruct (faults env 3%nat); intros [= <- <-]; exact H. }
  rewrite <-Hnew.
  assert (new_videos_of db videos ≠ []) as Hne by by rewrite Hnew.
  clear Hnew n0 ns.
  rewrite bind_run.
  destruct (load_loop env (new_videos_of db videos) _) as [rl sl] eqn:Hloop.
  apply load_loop_spec in Hloop as (k & Hk & Hok & Hview & Hpers & Hend).
  cbn [trace length persisted view] in *.
  destruct rl as [[]|].
  - destruct Hend as [-> Htr].
    rewrite firstn_all in Hview.
    rewrite bind_run. unfold commit. rewrite storage_call_run.
    cbn [trace length persisted view fst snd app].
    rewrite Htr, length_app. cbn [length].
    destruct (faults env (3 + length _)%nat) eqn:Fc.
    + intros [= <- <-]. cbn [fst snd persisted trace].
      rewrite Hpers, Hview.
      rewrite decide_False
        by (rewrite write_events_length; destruct (new_videos_of db videos);
            [done | cbn [length]; lia]).
      by apply commit_failed.
    + rewrite bind_run. unfold close_cursor at 1, local_call at 1.
      cbn [trace persisted view].
      rewrite bind_run. unfold close_connection. rewrite storage_call_run.
      cbn [trace length persisted view fst snd].
      rewrite !length_app. cbn [length].
      replace (3 + length (write_events env (new_videos_of db videos)) + 1 + 1)%nat
        with (3 + length (write_events env (new_videos_of db videos)) + 2)%nat
        by lia.
      pose proof (committed env db videos F0 F2 Hne Hok Fc) as H.
      cbn zeta in H. rewrite Hview, <-!app_assoc.
      destruct (faults env (3 + length (write_events env (new_videos_of db videos)) + 2)%nat);
        cbv beta iota zeta delta [mret M_ret]; intros [= <- <-]; exact H.
  - destruct Hend as (Hlt & Hf & Htr). intros [= <- <-].
    rewrite Hpers, Hview, Htr.
    pose proof (write_failed env db videos k F0 F2 Hlt Hok Hf) as H.
    cbn zeta in H. destruct (autocommit env); [|exact H].
    case_decide as Hk0; [|exact H]. subst k. exact H.
Qed.

(** ** Facts on the writes of a batch *)

Lemma elem_of_write_events env l e :
  e ∈ write_events env l ↔
  ∃ v, v ∈ l ∧ (e = Execute (MergeRaw (raw_row_of_video env v))
                ∨ e = Execute (InsertProcessed (video_id v))).
Proof.
  unfold write_events. rewrite list_elem_of_bind. split.
  - intros (v & He & Hv). exists v. split; [done|].
    apply elem_of_cons in He as [->|He]; [by left|].
    apply list_elem_of_singleton in He as ->. by right.
  - intros (v & Hv & [-> | ->]); exists v; (split; [|done]).
    + by left.
    + right. by left.
Qed.

Lemma write_events_is_write env l e :
  e ∈ write_events env l → is_write e = true.
Proof. rewrite elem_of_write_events. by intros (v & _ & [-> | ->]). Qed.

Lemma apply_events_inv (Inv : database → Prop) (l : list event) db :
  (∀ st d, Execute st ∈ l → Inv d → Inv (apply_write st d)) →
  Inv db → Inv (apply_events l db).
Proof.
  revert db. induction l as [|e l IH]; intros db Hstep Hdb; [done|].
  cbn [apply_events foldl]. apply IH.
  - intros st d Hst. apply Hstep. by right.
  - destruct e; try done. apply Hstep; [by left | done].
Qed.

Lemma load_videos_cons env v l db :
  load_videos env (v :: l) db = load_videos env l (load_video env db v).
Proof. reflexivity. Qed.

Lemma ledger_ids_load_videos env l db :
  ledger_ids (load_videos env l db) = ledger_ids db ++ (video_id <$> l).
Proof.
  revert db. induction l as [|v l IH]; intros db.
  - by rewrite app_nil_r.
  - rewrite load_videos_cons, IH.
    unfold ledger_ids, load_video. cbn.
    by rewrite fmap_app, <-app_assoc.
Qed.

Lemma filter_none {A} (P : A → Prop) `{!∀ x, Decision (P x)} (l : list A) :
  (∀ x, x ∈ l → ¬ P x) → filter P l = [].
Proof.
  induction l as [|x l IH]; intros Hno; [done|].
  rewrite filter_cons_False by (apply Hno; by left).
  apply IH. intros y Hy. apply Hno. by right.
Qed.

Lemma new_videos_of_loaded env db videos :
  new_videos_of (load_videos env (new_videos_of db videos) db) videos = [].
Proof.
  unfold new_videos_of at 1. rewrite ledger_ids_load_videos.
  apply filter_none. intros v Hv Hnot. apply Hnot.
  apply elem_of_app.
  destruct (decide (video_id v ∈ ledger_ids db)) as [Hin|Hout]; [by left|].
  right. apply list_elem_of_fmap_2. by apply list_elem_of_filter.
Qed.

(** The calls of a run of [load_bronze] in which no call fails. *)
Lemma load_bronze_reliable ac tts now videos db :
  let env := reliable ac tts now in
  let batch := default [] videos in
  let new := new_videos_of db batch in
  run (load_bronze env videos) db =
  (Ok (Z.of_nat (length new)),
   load_videos env new db,
   match batch, new with
   | [], _ => []
   | _ :: _, [] => load_head batch ++ [CloseConnection]
   | _ :: _, _ :: _ =>
       load_head batch ++ write_events env new
       ++ [Commit; CloseCursor; CloseConnection]
   end).
Proof.
  intros env batch new. destruct videos as [[|v vs]|]; [done| |done].
  subst batch new. change (default [] (Some (v :: vs))) with (v :: vs).
  set (batch := v :: vs).
  assert (batch ≠ []) as Hne by done.
  pose proof (load_bronze_outcome env db batch Hne) as H.
  destruct (run (load_bronze env (Some batch)) db) as [[r db'] tr].
  cbn [fst snd] in H.
  inversion H as [F| ? F | ? ? Hnew | k W ? ? ? ? F | W ? ? ? ? F
                  | W ? ? Hnew ? ?]; subst r db' tr; try discriminate F.
  - rewrite Hnew. done.
  - subst W. rewrite apply_events_load_videos.
    by destruct (new_videos_of db batch).
Qed.

Lemma merge_raw_fresh r rows :
  raw_video_id r ∉ raw_video_id <$> rows → merge_raw r rows = rows ++ [r].
Proof. intros H. unfold merge_raw. by rewrite decide_False. Qed.

Lemma merge_raw_present r rows :
  raw_video_id r ∈ raw_video_id <$> rows → merge_raw r rows = rows.
Proof. intros H. unfold merge_raw. by rewrite decide_True. Qed.

Lemma raw_length_load_videos env l db :
  NoDup (video_id <$> l) →
  (∀ v, v ∈ l → video_id v ∉ raw_video_id <$> raw_youtube_videos db) →
  length (raw_youtube_videos (load_videos env l db)) =
  (length (raw_youtube_videos db) + length l)%nat.
Proof.
  revert db. induction l as [|v l IH]; intros db Hnd Hfresh.
  - cbn. lia.
  - rewrite load_videos_cons. rewrite fmap_cons in Hnd.
    apply NoDup_cons in Hnd as [Hv Hnd].
    assert (raw_youtube_videos (load_video env db v)
            = raw_youtube_videos db ++ [raw_row_of_video env v]) as Hraw.
    { unfold load_video. cbn. apply merge_raw_fresh. cbn.
      apply Hfresh. by left. }
    rewrite IH; [| done |].
    + rewrite Hraw, length_app. cbn. lia.
    + intros w Hw. rewrite Hraw, fmap_app. cbn.
      intros [Hin|Hin%list_elem_of_singleton]%elem_of_app.
      * by apply (Hfresh w); [right|].
      * apply Hv. rewrite <-Hin. by apply list_elem_of_fmap_2.
Qed.

Lemma stg_length_load_videos env l db :
  length (stg_processed_videos (load_videos env l db)) =
  (length (stg_processed_videos db) + length l)%nat.
Proof.
  pose proof (f_equal length (ledger_ids_load_videos env l db)) as H.
  unfold ledger_ids in H. by rewrite length_app, !length_fmap in H.
Qed.

(** What every run of [load_bronze] preserves, whatever fails. *)
Lemma load_outcome_inv (Inv : database → Prop) env db videos r db' tr :
  load_outcome env db videos r db' tr →
  (∀ e d, e ∈ write_events env (new_videos_of db videos) →
          Inv d → Inv (apply_events [e] d)) →
  Inv db → Inv db'.
Proof.
  intros Hout Hstep Hdb.
  assert (∀ l, l ⊆ write_events env (new_videos_of db videos) →
               Inv (apply_events l db)) as Hall.
  { intros l Hl. apply apply_events_inv; [|done].
    intros st d Hst. apply (Hstep (Execute st)). by apply Hl. }
  destruct Hout; try done.
  - destruct (autocommit env); [|done]. apply Hall, subseteq_take.
  - destruct (autocommit env); [|done]. by apply Hall.
  - by apply Hall.
Qed.

Lemma load_head_not_write videos e : e ∈ load_head videos → is_write e = false.
Proof.
  unfold load_head. rewrite !elem_of_cons, elem_of_nil.
  by intros [-> | [-> | [-> | []]]].
Qed.

(** The write statements of a run are writes of the batch's new videos. *)
Lemma load_outcome_writes env db videos r db' tr e :
  load_outcome env db videos r db' tr →
  e ∈ tr → is_write e = true →
  e ∈ write_events env (new_videos_of db videos).
Proof.
  intros Hout He Hw.
  assert (∀ l, e ∈ load_head videos ++ l → (∀ x, x ∈ l → is_write x = true →
             x ∈ write_events env (new_videos_of db videos)) →
             e ∈ write_events env (new_videos_of db videos)) as Hsplit.
  { intros l [Hh|Hl]%elem_of_app Hin; [|by apply Hin].
    apply load_head_not_write in Hh. congruence. }
  destruct Hout.
  - apply list_elem_of_singleton in He as ->. done.
  - apply load_head_not_write in He. congruence.
  - apply (Hsplit _ He). intros x ->%list_elem_of_singleton. done.
  - apply (Hsplit _ He). intros x Hx _. by eapply subseteq_take.
  - apply (Hsplit _ He). intros x [Hx | ->%list_elem_of_singleton]%elem_of_app; done.
  - apply (Hsplit _ He). intros x [Hx|Hx]%elem_of_app; [done|].
    revert Hx. rewrite !elem_of_cons, elem_of_nil.
    by intros [-> | [-> | [-> | []]]].
Qed.

Lemma load_bronze_run_cases env videos db :
  run (load_bronze env videos) db = (Ok 0, db, [])
  ∨ ∃ batch, videos = Some batch ∧ batch ≠ []
             ∧ load_outcome env db batch
                 (returned (run (load_bronze env videos) db))
                 (tables (run (load_bronze env videos) db))
                 (calls (run (load_bronze env videos) db)).
Proof.
  destruct videos as [[|v vs]|]; [by left| |by left].
  right. exists (v :: vs). split_and!; [done..|].
  by apply load_bronze_outcome.
Qed.

(** C10. With an empty batch, or with no batch at all, [load_bronze]
    returns 0 and makes no call on the warehouse: no connection is
    opened, the ledger is not queried, and the raw store and the ledger
    are left as they were, whatever the warehouse would have done. *)
Theorem load_bronze_empty_batch (env : environment) (db : database) :
  run (load_bronze env None) db = (Ok 0, db, [])
  ∧ run (load_bronze env (Some [])) db = (Ok 0, db, []).
Proof. split; reflexivity. Qed.

(** C9. When no storage call fails, [load_bronze] returns the number of
    candidates whose identifier was not in the ledger; it is the number
    of ledger entries the run adds, and the number of rows it adds to the
    raw store when the batch has no duplicate identifier and every
    identifier of the raw store is in the ledger; it is 0 when there is
    no such candidate, the empty and the absent batch included.  In any
    environment, a run that returns returns that number. *)
Theorem load_bronze_returns_new_count (ac : bool) (tts : string → Z)
        (now : Z) (videos : option (list video)) (db : database) :
  let env := reliable ac tts now in
  let new := new_videos_of db (default [] videos) in
  let out := run (load_bronze env videos) db in
  returned out = Ok (Z.of_nat (length new))
  ∧ length (stg_processed_videos (tables out))
    = (length (stg_processed_videos db) + length new)%nat
  ∧ (NoDup (video_id <$> default [] videos) →
     (∀ r, r ∈ raw_youtube_videos db → raw_video_id r ∈ ledger_ids db) →
     length (raw_youtube_videos (tables out))
     = (length (raw_youtube_videos db) + length new)%nat)
  ∧ (new = [] → returned out = Ok 0 ∧ tables out = db)
  ∧ (∀ env' n, returned (run (load_bronze env' videos) db) = Ok n →
               n = Z.of_nat (length new)).
Proof.
  intros env new out. subst out new env. unfold returned, tables.
  rewrite load_bronze_reliable. cbn [fst snd]. set (new := new_videos_of db (default [] videos)).
  split_and!.
  - done.
  - apply stg_length_load_videos.
  - intros Hnd Hsub. apply raw_length_load_videos.
    + unfold new, new_videos_of. eapply sublist_NoDup; [exact Hnd|].
      apply fmap_sublist, sublist_filter.
    + intros v [Hv _]%list_elem_of_filter Hin.
      apply list_elem_of_fmap in Hin as (r & Hid & Hr).
      apply Hv. rewrite Hid. by apply Hsub.
  - intros ->. done.
  - intros env' n. unfold returned.
    destruct videos as [[|v vs]|]; try by intros [= <-].
    pose proof (load_bronze_outcome env' db (v :: vs) ltac:(done)) as H.
    destruct (run (load_bronze env' (Some (v :: vs))) db) as [[r db'] tr].
    cbn [fst snd] in *. intros Hr.
    destruct H as [| | ? ? Hnew | | | W ? ? ? ? ?]; try discriminate Hr.
    + destruct (faults env' 3%nat); [done|]. injection Hr as <-.
      subst new. change (default [] (Some (v :: vs))) with (v :: vs).
      by rewrite Hnew.
    + destruct (faults env' (3 + length W + 2)%nat); [done|].
      by injection Hr as <-.
Qed.

(** C1. When no storage call fails, running [load_bronze] a second time
    on the same batch leaves the raw store and the ledger exactly as the
    first run left them: the second run returns 0 and executes no write
    statement. *)
Theorem load_bronze_idempotent (ac : bool) (tts : string → Z) (now : Z)
        (videos : option (list video)) (db : database) :
  let env := reliable ac tts now in
  let once := run (load_bronze env videos) db in
  let twice := run (load_bronze env videos) (tables once) in
  tables twice = tables once
  ∧ returned twice = Ok 0
  ∧ filter (λ e, is_write e = true) (calls twice) = []
  ∧ (Commit ∉ calls twice)
  ∧ returned once = Ok (Z.of_nat (length (new_videos_of db (default [] videos)))).
Proof.
  intros env once twice. subst twice once env. unfold returned, tables, calls.
  rewrite !load_bronze_reliable. cbn [fst snd].
  rewrite new_videos_of_loaded. cbn [length load_videos foldl].
  split_and!; try done.
  - by destruct (default [] videos).
  - destruct (default [] videos); cbn; set_solver.
Qed.

(** ** Identifiers of the ledger and the raw store *)

Lemma raw_rows_of_merge vid r d :
  raw_video_id r ≠ vid →
  raw_rows_of vid (apply_write (MergeRaw r) d) = raw_rows_of vid d.
Proof.
  intros Hne. unfold raw_rows_of, apply_write, merge_raw. cbn.
  case_decide; [done|].
  by rewrite filter_app, filter_cons_False, filter_nil, app_nil_r.
Qed.

Lemma new_video_not_in_ledger db videos v vid :
  v ∈ new_videos_of db videos → vid ∈ ledger_ids db → video_id v ≠ vid.
Proof.
  intros [Hv _]%list_elem_of_filter Hvid Heq. apply Hv. by rewrite Heq.
Qed.

Lemma load_bronze_keeps_processed env videos db vid :
  vid ∈ ledger_ids db →
  let out := run (load_bronze env videos) db in
  (∀ row, Execute (MergeRaw row) ∈ calls out → raw_video_id row ≠ vid)
  ∧ raw_rows_of vid (tables out) = raw_rows_of vid db
  ∧ (∀ x, x ∈ stg_processed_videos db → x ∈ stg_processed_videos (tables out)).
Proof.
  intros Hvid out. subst out.
  destruct (load_bronze_run_cases env videos db)
    as [-> | (batch & -> & Hne & Hout)].
  { split_and!; [|done..]. by intros row []%elem_of_nil. }
  split.
  - intros row Hrow.
    apply (load_outcome_writes _ _ _ _ _ _ _ Hout) in Hrow; [|done].
    apply elem_of_write_events in Hrow as (v & Hv & [[= ->] | [=]]).
    cbn. by eapply new_video_not_in_ledger.
  - apply (load_outcome_inv
             (λ d, raw_rows_of vid d = raw_rows_of vid db
                   ∧ ∀ x, x ∈ stg_processed_videos db →
                          x ∈ stg_processed_videos d) _ _ _ _ _ _ Hout);
      [|done].
    intros e d (v & Hv & [-> | ->])%elem_of_write_events [Hraw Hstg];
      cbn [apply_events foldl].
    + split; [|done]. rewrite raw_rows_of_merge; [done|].
      cbn. by eapply new_video_not_in_ledger.
    + split; [done|]. intros x Hx. cbn. apply elem_of_app. left. by apply Hstg.
Qed.

(** C3. For every identifier that is in the ledger with success status
    before a load: a run of [load_bronze], whatever fails in it, issues
    no MERGE for that identifier, leaves the rows of the raw store with
    that identifier as they were, and leaves the ledger entry in place;
    hence no sequence of runs ever changes those rows. *)
Theorem processed_ids_never_reinserted (vid : string) (db : database) :
  ProcessedRow vid "SUCCESS" ∈ stg_processed_videos db →
  (∀ env videos,
     let out := run (load_bronze env videos) db in
     (∀ row, Execute (MergeRaw row) ∈ calls out → raw_video_id row ≠ vid)
     ∧ raw_rows_of vid (tables out) = raw_rows_of vid db
     ∧ ProcessedRow vid "SUCCESS" ∈ stg_processed_videos (tables out))
  ∧ (∀ runs,
       raw_rows_of vid (load_runs runs db) = raw_rows_of vid db
       ∧ ProcessedRow vid "SUCCESS" ∈ stg_processed_videos (load_runs runs db)).
Proof.
  assert (∀ d, ProcessedRow vid "SUCCESS" ∈ stg_processed_videos d →
               vid ∈ ledger_ids d) as Hids.
  { intros d Hd. unfold ledger_ids.
    by apply (list_elem_of_fmap_2 processed_video_id) in Hd. }
  intros Hin. split.
  - intros env videos out.
    destruct (load_bronze_keeps_processed env videos db vid (Hids _ Hin))
      as (Hm & Hraw & Hstg).
    split_and!; [done..|]. by apply Hstg.
  - intros runs. revert db Hin.
    induction runs as [|[env videos] runs IH]; intros db Hin; [done|].
    cbn [load_runs].
    destruct (load_bronze_keeps_processed env videos db vid (Hids _ Hin))
      as (_ & Hraw & Hstg).
    destruct (IH _ (Hstg _ Hin)) as [IHraw IHstg].
    split; [|done]. by rewrite IHraw.
Qed.

Lemma processed_ids_never_reinserted_witness :
  ProcessedRow "abc123" "SUCCESS" ∈ stg_processed_videos db_with_a
  ∧ raw_rows_of "abc123"
      (load_runs [(env_autocommit_fault, Some [video_a; video_b]);
                  (env_transactional_fault, Some [video_b; video_a])]
                 db_with_a)
    = raw_rows_of "abc123" db_with_a.
Proof.
  assert (ProcessedRow "abc123" "SUCCESS" ∈ stg_processed_videos db_with_a)
    as Hin by (cbn; set_solver).
  split; [exact Hin|].
  apply (processed_ids_never_reinserted "abc123" db_with_a Hin).
Defined.

(** ** Truncation of the stored fields *)

Lemma raw_row_of_video_truncated env v :
  let row := raw_row_of_video env v in
  (raw_title row = Str.take 500 (title v)
   ∧ Str.len (raw_title row) = Nat.min 500 (Str.len (title v)))
  ∧ (raw_description row = Str.take 5000 (description v)
     ∧ Str.len (raw_description row)
       = Nat.min 5000 (Str.len (description v)))
  ∧ (raw_channel_title row = Str.take 200 (channel_title v)
     ∧ Str.len (raw_channel_title row)
       = Nat.min 200 (Str.len (channel_title v))).
Proof.
  intros row. subst row. unfold raw_row_of_video.
  cbn [raw_title raw_description raw_channel_title].
  by rewrite !take_length.
Qed.

(** A run that returns has loaded the candidates that were not in the
    ledger. *)
Lemma load_outcome_returned env db videos r db' tr n :
  load_outcome env db videos r db' tr → r = Ok n →
  n = Z.of_nat (length (new_videos_of db videos))
  ∧ db' = load_videos env (new_videos_of db videos) db.
Proof.
  intros Hout Hr.
  destruct Hout as [| | ? ? Hnew | | | W ? ? ? ? ?]; try discriminate Hr.
  - destruct (faults env 3%nat); [done|]. injection Hr as <-.
    by rewrite Hnew.
  - destruct (faults env (3 + length W + 2)%nat); [done|].
    injection Hr as <-. split; [done|]. apply apply_events_load_videos.
Qed.

Lemma raw_rows_of_absent vid db :
  vid ∉ raw_ids db → raw_rows_of vid db = [].
Proof.
  unfold raw_ids, raw_rows_of. intros Hvid.
  induction (raw_youtube_videos db) as [|r rows IH]; [done|].
  rewrite fmap_cons, not_elem_of_cons in Hvid. destruct Hvid as [Hne Hvid].
  rewrite filter_cons_False by done. by apply IH.
Qed.

Lemma raw_rows_of_load_video_present env vid v db :
  vid ∈ raw_ids db →
  vid ∈ raw_ids (load_video env db v)
  ∧ raw_rows_of vid (load_video env db v) = raw_rows_of vid db.
Proof.
  unfold raw_ids, raw_rows_of, load_video, apply_write, merge_raw.
  cbn [raw_youtube_videos]. intros Hvid. case_decide as Hin; [done|].
  split.
  - rewrite fmap_app. apply elem_of_app. by left.
  - rewrite filter_app, filter_cons_False, filter_nil, app_nil_r; [done|].
    cbn [raw_row_of_video raw_video_id] in *. by intros <-.
Qed.

(** The rows of the raw store with a given identifier once a list of
    candidates has been loaded: those it held, or else the row of the
    first candidate of the list with that identifier. *)
Lemma raw_rows_of_load_videos env l db vid :
  raw_rows_of vid (load_videos env l db) =
  if decide (vid ∈ raw_ids db) then raw_rows_of vid db
  else match first_with_id vid l with
       | Some v => [raw_row_of_video env v]
       | None => []
       end.
Proof.
  revert db. induction l as [|v l IH]; intros db.
  - cbn [load_videos foldl first_with_id]. case_decide; [done|].
    by apply raw_rows_of_absent.
  - rewrite load_videos_cons, IH. cbn [first_with_id].
    destruct (decide (vid ∈ raw_ids db)) as [Hin | Hout].
    + destruct (raw_rows_of_load_video_present env vid v db Hin) as [Hin' ->].
      by rewrite decide_True.
    + destruct (decide (video_id v = vid)) as [Heq | Hne].
      * assert (raw_youtube_videos (load_video env db v)
                = raw_youtube_videos db ++ [raw_row_of_video env v]) as Hrows.
        { unfold load_video, apply_write, merge_raw. cbn [raw_youtube_videos].
          rewrite decide_False; [done|].
          cbn [raw_row_of_video raw_video_id]. by rewrite Heq. }
        rewrite decide_True.
        -- unfold raw_rows_of at 1. rewrite Hrows, filter_app.
           fold (raw_rows_of vid db). rewrite (raw_rows_of_absent _ _ Hout).
           by rewrite filter_cons_True.
        -- unfold raw_ids. rewrite Hrows, fmap_app. apply elem_of_app. right.
           cbn. rewrite Heq. by left.
      * rewrite decide_False; [done|].
        unfold raw_ids, load_video, apply_write, merge_raw.
        cbn [raw_youtube_videos]. case_decide; [done|].
        rewrite fmap_app. cbn. rewrite elem_of_app, list_elem_of_singleton.
        intros [? | ?]; [done | by apply Hne].
Qed.

Lemma first_with_id_filter (P : video → Prop) `{!∀ v, Decision (P v)} vid l v :
  first_with_id vid l = Some v → P v →
  first_with_id vid (filter P l) = Some v.
Proof.
  induction l as [|w l IH]; [done|]. cbn [first_with_id].
  case_decide as Heq.
  - intros [= ->] Hv. rewrite filter_cons_True by done. cbn [first_with_id].
    by rewrite decide_True.
  - intros Hf Hv. destruct (decide (P w)).
    + rewrite filter_cons_True by done. cbn [first_with_id].
      rewrite decide_False by done. by apply IH.
    + rewrite filter_cons_False by done. by apply IH.
Qed.

(** C8. Every row that a run of [load_bronze] adds to the raw store is
    the row of a candidate of the batch with its title cut to its first
    500 characters, its description to its first 5000 and its channel
    name to its first 200, so that they are at most that long.  And the
    rows are there: when the run returns, a candidate that is the first
    of the batch with its identifier, and whose identifier was neither
    in the ledger nor in the raw store, has exactly one row in the raw
    store, which holds its fields cut in that way; if its title has 600
    characters, the stored title is its first 500 characters.  A run in
    which no storage call fails returns. *)
Theorem stored_fields_truncated (env : environment)
        (videos : option (list video)) (db : database) :
  let out := run (load_bronze env videos) db in
  (∀ row, row ∈ raw_youtube_videos (tables out) →
     row ∈ raw_youtube_videos db
     ∨ ∃ v, v ∈ default [] videos
            ∧ row = raw_row_of_video env v
            ∧ raw_title row = Str.take 500 (title v)
            ∧ raw_description row = Str.take 5000 (description v)
            ∧ raw_channel_title row = Str.take 200 (channel_title v)
            ∧ (Str.len (raw_title row) ≤ 500)%nat
            ∧ (Str.len (raw_description row) ≤ 5000)%nat
            ∧ (Str.len (raw_channel_title row) ≤ 200)%nat)
  ∧ (∀ n v, returned out = Ok n →
       first_with_id (video_id v) (default [] videos) = Some v →
       video_id v ∉ ledger_ids db →
       video_id v ∉ raw_ids db →
       ∃ row,
         raw_rows_of (video_id v) (tables out) = [row]
         ∧ row ∈ raw_youtube_videos (tables out)
         ∧ raw_title row = Str.take 500 (title v)
         ∧ raw_description row = Str.take 5000 (description v)
         ∧ raw_channel_title row = Str.take 200 (channel_title v)
         ∧ Str.len (raw_title row) = Nat.min 500 (Str.len (title v))
         ∧ Str.len (raw_description row)
           = Nat.min 5000 (Str.len (description v))
         ∧ Str.len (raw_channel_title row)
           = Nat.min 200 (Str.len (channel_title v))
         ∧ (Str.len (title v) = 600%nat →
            Str.len (raw_title row) = 500%nat
            ∧ ∃ rest, title v = raw_title row +:+ rest))
  ∧ (∀ ac tts now,
       ∃ n, returned (run (load_bronze (reliable ac tts now) videos) db)
            = Ok n).
Proof.
  intros out. split_and!.
  - subst out.
    destruct (load_bronze_run_cases env videos db)
      as [-> | (batch & -> & Hne & Hout)]; [by left|].
    apply (load_outcome_inv
             (λ d, ∀ row, row ∈ raw_youtube_videos d →
                row ∈ raw_youtube_videos db ∨ _) _ _ _ _ _ _ Hout);
      [|by left].
    intros e d (v & Hv & [-> | ->])%elem_of_write_events Hd row;
      cbn [apply_events foldl apply_write raw_youtube_videos]; [|apply Hd].
    unfold merge_raw. case_decide; [apply Hd|].
    intros [Hrow | ->%list_elem_of_singleton]%elem_of_app; [by apply Hd|].
    right. exists v. apply list_elem_of_filter in Hv as [_ Hv].
    destruct (raw_row_of_video_truncated env v)
      as ((Ht & Hlt) & (Hd' & Hld) & (Hc & Hlc)).
    split_and!; try done; lia.
  - intros n v Hret Hfirst Hledger Hraw. subst out.
    destruct videos as [[|w l]|]; [done | | done].
    set (batch := w :: l) in *.
    pose proof (load_bronze_outcome env db batch ltac:(done)) as Hout.
    change (default [] (Some batch)) with batch in Hfirst.
    unfold returned, tables in *.
    destruct (load_outcome_returned _ _ _ _ _ _ n Hout Hret) as [_ Htab].
    rewrite Htab.
    assert (first_with_id (video_id v) (new_videos_of db batch) = Some v)
      as Hnew by by apply first_with_id_filter.
    assert (raw_rows_of (video_id v)
              (load_videos env (new_videos_of db batch) db)
            = [raw_row_of_video env v]) as Hrows.
    { rewrite raw_rows_of_load_videos, decide_False by done. by rewrite Hnew. }
    exists (raw_row_of_video env v).
    destruct (raw_row_of_video_truncated env v)
      as ((Ht & Hlt) & (Hd' & Hld) & (Hc & Hlc)).
    split_and!; try done.
    + assert (raw_row_of_video env v
              ∈ raw_rows_of (video_id v)
                  (load_videos env (new_videos_of db batch) db)) as Hin
        by (rewrite Hrows; by left).
      by apply list_elem_of_filter in Hin as [_ Hin].
    + intros Hlen. cbn zeta in *. split; [lia|]. rewrite Ht. apply take_prefix.
  - intros ac tts now. eexists. unfold returned.
    by rewrite load_bronze_reliable.
Qed.

(** The stored title of a candidate whose title has 600 characters. *)
Example long_title_stored :
  raw_title <$> raw_youtube_videos
     (tables (run (load_bronze (reliable true fixed_timestamp 1710000000)
                               (Some [video_long_title])) empty_db))
  = [string_repeat "x" 500].
Proof. vm_compute. reflexivity. Qed.

(** ** The commit discipline *)

Lemma lookup_unique_mid {A} (l rest : list A) (x : A) (i : nat) :
  x ∉ l → x ∉ rest →
  (l ++ x :: rest) !! i = Some x → take i (l ++ x :: rest) = l.
Proof.
  intros Hl Hrest [Hi | [Hle Hi]]%lookup_app_Some.
  - by apply list_elem_of_lookup_2 in Hi.
  - destruct (i - length l)%nat as [|j] eqn:Hj.
    + replace i with (length l) by lia. apply take_app_length.
    + cbn in Hi. by apply list_elem_of_lookup_2 in Hi.
Qed.

Lemma lookup_segments {A} (h w t : list A) (i : nat) (x : A) :
  (h ++ w ++ t) !! i = Some x →
  x ∈ h ∨ (∃ j, i = (length h + j)%nat ∧ w !! j = Some x) ∨ x ∈ t.
Proof.
  intros [Hi | [Hle [Hi | [Hle' Hi]]%lookup_app_Some]]%lookup_app_Some.
  - left. by eapply list_elem_of_lookup_2.
  - right. left. exists (i - length h)%nat. split; [lia | done].
  - right. right. by eapply list_elem_of_lookup_2.
Qed.

Lemma commit_not_in_head videos : Commit ∉ load_head videos.
Proof.
  unfold load_head. rewrite !elem_of_cons, elem_of_nil.
  by intros [? | [? | [? | []]]].
Qed.

Lemma commit_not_in_writes env l : Commit ∉ write_events env l.
Proof. by intros ?%write_events_is_write. Qed.

(** In a session that is not in autocommit mode the run leaves the
    tables as they were or with the writes of the whole batch. *)
Lemma load_bronze_whole_batch (env : environment)
        (videos : list video) (db : database) :
  autocommit env = false →
  videos ≠ [] →
  let new := new_videos_of db videos in
  let W := write_events env new in
  let out := run (load_bronze env (Some videos)) db in
  (tables out = db
   ∨ tables out = load_videos env new db ∧ Commit ∈ calls out)
  ∧ (∀ i, calls out !! i = Some Commit →
          take i (calls out) = load_head videos ++ W)
  ∧ (∀ i e, calls out !! i = Some e → is_write e = true →
            faults env i = true →
            returned out = Exn ∧ tables out = db)
  ∧ (∀ n, returned out = Ok n → tables out = load_videos env new db).
Proof.
  intros Hac Hne new W out.
  pose proof (load_bronze_outcome env db videos Hne) as Hout.
  fold out in Hout. unfold returned, tables, calls.
  destruct out as [[r db'] tr]. cbn [fst snd] in *.
  destruct Hout as [F0 | F0 F2 | F0 F2 Hnew | k W' F0 F2 Hk Hok Hf
                    | W' F0 F2 Hnew Hok Hf | W' F0 F2 Hnew Hok Hf];
    rewrite ?Hac; try subst W'; fold new; fold W.
  - split_and!; [by left | | | done].
    + by intros [|i] Hi.
    + intros [|i] e [= <-]; done.
  - split_and!; [by left | | | done].
    + intros i Hi%list_elem_of_lookup_2. by apply commit_not_in_head in Hi.
    + intros i e He%list_elem_of_lookup_2 Hw.
      apply load_head_not_write in He. congruence.
  - split_and!; [by left | | | ].
    + intros i Hi%list_elem_of_lookup_2.
      apply elem_of_app in Hi as [Hi | Hi%list_elem_of_singleton]; [|done].
      by apply commit_not_in_head in Hi.
    + intros i e He%list_elem_of_lookup_2 Hw.
      apply elem_of_app in He as [He | ->%list_elem_of_singleton]; [|done].
      apply load_head_not_write in He. congruence.
    + intros n _. subst new. by rewrite Hnew.
  - split_and!; [by left | | done | done].
    intros i Hi%list_elem_of_lookup_2.
    apply elem_of_app in Hi as [Hi | Hi%subseteq_take].
    + by apply commit_not_in_head in Hi.
    + by apply commit_not_in_writes in Hi.
  - split_and!; [by left | | done | done].
    intros i Hi. rewrite app_assoc in Hi |- *.
    apply lookup_unique_mid in Hi; [done | | by intros ?%elem_of_nil].
    intros [Hc | Hc]%elem_of_app.
    + by apply commit_not_in_head in Hc.
    + by apply commit_not_in_writes in Hc.
  - split_and!.
    + right. split; [apply apply_events_load_videos|].
      rewrite !elem_of_app. right. right. by left.
    + intros i Hi. rewrite app_assoc in Hi |- *.
      apply lookup_unique_mid in Hi; [done | | ].
      * intros [Hc | Hc]%elem_of_app.
        -- by apply commit_not_in_head in Hc.
        -- by apply commit_not_in_writes in Hc.
      * rewrite !elem_of_cons, elem_of_nil. by intros [? | [? | []]].
    + intros i e He Hw Hfault.
      apply lookup_segments in He as [He | [(j & -> & Hj) | He]].
      * apply load_head_not_write in He. congruence.
      * apply lookup_lt_Some in Hj. unfold load_head in Hfault.
        cbn [length] in Hfault. rewrite (Hok j Hj) in Hfault. done.
      * revert He. rewrite !elem_of_cons, elem_of_nil.
        intros [-> | [-> | [-> | []]]]; done.
    + intros n _. apply apply_events_load_videos.
Qed.

Lemma filter_commit_head videos :
  filter (λ e, is_commit e = true) (load_head videos) = [].
Proof. reflexivity. Qed.

Lemma filter_commit_writes l :
  (∀ e, e ∈ l → is_write e = true) →
  filter (λ e, is_commit e = true) l = [].
Proof.
  intros H. apply filter_none. intros e He Hc.
  apply H in He. by destruct e as [| |[]| | |].
Qed.

Lemma filter_write_head videos :
  filter (λ e, is_write e = true) (load_head videos) = [].
Proof. reflexivity. Qed.

(** When the commit is called, and how often. *)
Lemma load_outcome_commit env db videos r db' tr :
  load_outcome env db videos r db' tr →
  let new := new_videos_of db videos in
  let W := write_events env new in
  (length (filter (λ e, is_commit e = true) tr) ≤ 1)%nat
  ∧ (Commit ∈ tr ↔
       new ≠ [] ∧ faults env 0%nat = false ∧ faults env 2%nat = false
       ∧ ∀ j, (j < length W)%nat → faults env (3 + j)%nat = false)
  ∧ (new = [] →
       (Commit ∉ tr) ∧ filter (λ e, is_write e = true) tr = [] ∧ db' = db)
  ∧ (∀ n, r = Ok n → new ≠ [] →
       length (filter (λ e, is_commit e = true) tr) = 1%nat
       ∧ ∃ i, tr !! i = Some Commit ∧ take i tr = load_head videos ++ W).
Proof.
  intros Hout. cbn zeta.
  assert (∀ e, e ∈ write_events env (new_videos_of db videos) →
               is_write e = true) as HW
    by (intros e; apply write_events_is_write).
  destruct Hout as [F0 | F0 F2 | F0 F2 Hnew | k W F0 F2 Hk Hok Hf
                    | W F0 F2 Hnew Hok Hf | W F0 F2 Hnew Hok Hf];
    try subst W.
  - split_and!.
    + vm_compute; lia.
    + split.
      * rewrite list_elem_of_singleton. done.
      * intros (_ & F0' & _). congruence.
    + intros _. split_and!; [|done..]. by rewrite list_elem_of_singleton.
    + done.
  - split_and!.
    + rewrite filter_commit_head. cbn [length]. lia.
    + split.
      * by intros ?%commit_not_in_head.
      * intros (_ & _ & F2' & _). congruence.
    + intros _. split_and!; [apply commit_not_in_head | done..].
    + done.
  - split_and!.
    + rewrite filter_app, filter_commit_head. vm_compute; lia.
    + split.
      * intros [Hc | Hc%list_elem_of_singleton]%elem_of_app; [|done].
        by apply commit_not_in_head in Hc.
      * by intros [? _].
    + intros _. split_and!; [|done..].
      intros [Hc | Hc%list_elem_of_singleton]%elem_of_app; [|done].
      by apply commit_not_in_head in Hc.
    + intros n _ Hn. done.
  - assert (Commit ∉ load_head videos
                     ++ take (S k) (write_events env (new_videos_of db videos)))
      as Hno.
    { intros [Hc | Hc%subseteq_take]%elem_of_app.
      - by apply commit_not_in_head in Hc.
      - by apply commit_not_in_writes in Hc. }
    split_and!.
    + rewrite filter_app, filter_commit_head, filter_commit_writes; [cbn; lia|].
      intros e He%subseteq_take. by apply HW.
    + split; [done|]. intros (_ & _ & _ & Hall). rewrite Hall in Hf; done.
    + intros Hnil. exfalso. rewrite Hnil in Hk. cbn in Hk. lia.
    + done.
  - split_and!.
    + rewrite !filter_app, filter_commit_head, filter_commit_writes by done.
      cbn [app]. vm_compute; lia.
    + split; [done|]. intros _. rewrite !elem_of_app. right. right. by left.
    + done.
    + done.
  - split_and!.
    + rewrite !filter_app, filter_commit_head, filter_commit_writes by done.
      cbn [app]. vm_compute; lia.
    + split; [done|]. intros _. rewrite !elem_of_app. right. right. by left.
    + done.
    + intros n _ _. split.
      * by rewrite !filter_app, filter_commit_head, filter_commit_writes.
      * exists (length (load_head videos
                        ++ write_events env (new_videos_of db videos))).
        rewrite app_assoc. split.
        -- by rewrite list_lookup_middle.
        -- by rewrite take_app_length.
Qed.

(** C2, amended. In a session that is not in autocommit mode, for every
    non-empty batch: the run leaves the tables either as they were or
    with the writes of the whole batch, and the latter only after a
    commit; a commit is found in the run only once every write of the
    batch has been executed; when a write fails the run raises and
    nothing of the batch is persisted; a run that returns has persisted
    the writes of the whole batch.  The commit is called at most once,
    and it is called exactly when some candidate is not in the ledger
    and the connection, the ledger query and every write succeed; when
    every candidate is in the ledger the run executes no write and calls
    no commit; a run that returns with some candidate not in the ledger
    has called the commit once, after the last write. *)
Theorem load_bronze_all_or_nothing (env : environment)
        (videos : list video) (db : database) :
  autocommit env = false →
  videos ≠ [] →
  let new := new_videos_of db videos in
  let W := write_events env new in
  let out := run (load_bronze env (Some videos)) db in
  (tables out = db
   ∨ tables out = load_videos env new db ∧ Commit ∈ calls out)
  ∧ (∀ i, calls out !! i = Some Commit →
          take i (calls out) = load_head videos ++ W)
  ∧ (∀ i e, calls out !! i = Some e → is_write e = true →
            faults env i = true →
            returned out = Exn ∧ tables out = db)
  ∧ (∀ n, returned out = Ok n → tables out = load_videos env new db)
  ∧ (length (filter (λ e, is_commit e = true) (calls out)) ≤ 1)%nat
  ∧ (Commit ∈ calls out ↔
       new ≠ [] ∧ faults env 0%nat = false ∧ faults env 2%nat = false
       ∧ ∀ j, (j < length W)%nat → faults env (3 + j)%nat = false)
  ∧ (new = [] →
       (Commit ∉ calls out)
       ∧ filter (λ e, is_write e = true) (calls out) = []
       ∧ tables out = db)
  ∧ (∀ n, returned out = Ok n → new ≠ [] →
       length (filter (λ e, is_commit e = true) (calls out)) = 1%nat
       ∧ ∃ i, calls out !! i = Some Commit
              ∧ take i (calls out) = load_head videos ++ W).
Proof.
  intros Hac Hne new W out.
  destruct (load_bronze_whole_batch env videos db Hac Hne)
    as (H1 & H2 & H3 & H4).
  destruct (load_outcome_commit _ _ _ _ _ _
              (load_bronze_outcome env db videos Hne))
    as (H5 & H6 & H7 & H8).
  split_and!; done.
Qed.

Lemma load_bronze_all_or_nothing_witness :
  autocommit env_transactional_fault = false
  ∧ [video_a; video_b] ≠ []
  ∧ let out := run (load_bronze env_transactional_fault
                                (Some [video_a; video_b])) empty_db in
    returned out = Exn ∧ tables out = empty_db.
Proof.
  split; [reflexivity|]. split; [done|].
  pose proof (load_bronze_all_or_nothing env_transactional_fault
                [video_a; video_b] empty_db eq_refl ltac:(done))
    as (_ & _ & H & _).
  eapply (H 5%nat); [vm_compute; reflexivity | reflexivity | reflexivity].
Defined.

(** C2 as worded fails in an autocommit session: the MERGE of the second
    video of a batch raises, the run raises without having called commit,
    and the row and the ledger entry of the first video are persisted. *)
Lemma load_bronze_autocommit_counterexample :
  let out := run (load_bronze env_autocommit_fault
                              (Some [video_a; video_b])) empty_db in
  (∃ e, calls out !! 5%nat = Some e ∧ is_write e = true
        ∧ faults env_autocommit_fault 5%nat = true)
  ∧ returned out = Exn
  ∧ (Commit ∉ calls out)
  ∧ tables out = db_with_a
  ∧ tables out ≠ empty_db
  ∧ tables out ≠ load_videos env_autocommit_fault [video_a; video_b] empty_db.
Proof.
  assert (run (load_bronze env_autocommit_fault (Some [video_a; video_b]))
              empty_db
          = (Exn, db_with_a,
             [Connect; OpenCursor;
              Execute (SelectProcessed ["abc123"; "oat001"]);
              Execute (MergeRaw (raw_row_of_video env_autocommit_fault video_a));
              Execute (InsertProcessed "abc123");
              Execute (MergeRaw (raw_row_of_video env_autocommit_fault video_b))]))
    as Hrun by (vm_compute; reflexivity).
  cbn zeta. rewrite Hrun. unfold returned, tables, calls. cbn [fst snd].
  split_and!; try done.
  - eexists. split_and!; reflexivity.
  - rewrite !elem_of_cons, elem_of_nil.
    by intros [? | [? | [? | [? | [? | [? | []]]]]]].
Qed.

(** * Further properties of the load *)

(** ** What a run can leave behind *)

Lemma load_outcome_whole_or_nothing env db videos r db' tr :
  load_outcome env db videos r db' tr →
  r ≠ Exn ∨ autocommit env = false →
  db' = db ∨ db' = load_videos env (new_videos_of db videos) db.
Proof.
  intros Hout Hmode.
  destruct Hout as [| | | k W ? ? ? ? ? | W ? ? ? ? ? | W ? ? ? ? ?].
  - by left.
  - by left.
  - by left.
  - destruct Hmode as [? | ->]; [done | by left].
  - destruct Hmode as [? | ->]; [done | by left].
  - right. apply apply_events_load_videos.
Qed.

Lemma load_runs_inv (Inv : database → Prop) runs db :
  (∀ env videos d, Inv d → Inv (tables (run (load_bronze env videos) d))) →
  Inv db → Inv (load_runs runs db).
Proof.
  intros Hstep. revert db.
  induction runs as [|[env videos] runs IH]; intros db Hdb; [done|].
  cbn [load_runs]. by apply IH, Hstep.
Qed.

(** ** The raw store keeps one row per identifier *)

Lemma apply_write_raw_NoDup st d :
  NoDup (raw_ids d) → NoDup (raw_ids (apply_write st d)).
Proof.
  unfold raw_ids. destruct st as [| |r|]; cbn; try done.
  intros Hnd. unfold merge_raw. case_decide as Hin; [done|].
  rewrite fmap_app. apply NoDup_app. split_and!; [done | | apply NoDup_singleton].
  intros i Hi ->%list_elem_of_singleton. done.
Qed.

Lemma load_bronze_raw_NoDup env videos db :
  NoDup (raw_ids db) →
  NoDup (raw_ids (tables (run (load_bronze env videos) db))).
Proof.
  intros Hnd.
  destruct (load_bronze_run_cases env videos db)
    as [-> | (batch & -> & Hne & Hout)]; [done|].
  apply (load_outcome_inv (λ d, NoDup (raw_ids d)) _ _ _ _ _ _ Hout); [|done].
  intros e d _ Hd. destruct e; try done. by apply apply_write_raw_NoDup.
Qed.

(** X1. If the raw store holds at most one row per identifier, it still
    does after any sequence of runs of [load_bronze], whatever the
    batches hold (duplicates included), whatever the transaction mode,
    and whichever storage calls fail. *)
Theorem raw_ids_stay_distinct
        (runs : list (environment * option (list video))) (db : database) :
  NoDup (raw_ids db) → NoDup (raw_ids (load_runs runs db)).
Proof.
  apply (load_runs_inv (λ d, NoDup (raw_ids d))).
  intros env videos d. apply load_bronze_raw_NoDup.
Qed.

Lemma raw_ids_stay_distinct_witness :
  NoDup (raw_ids db_with_a)
  ∧ NoDup (raw_ids
             (load_runs [(env_autocommit_fault, Some [video_b; video_a; video_b]);
                         (env_transactional_fault, Some [video_a; video_b])]
                        db_with_a)).
Proof.
  assert (NoDup (raw_ids db_with_a)) as Hnd by (cbn; apply NoDup_singleton).
  split; [exact Hnd|]. by apply raw_ids_stay_distinct.
Defined.

(** ** The tables only grow *)

Lemma apply_write_appends st d :
  raw_youtube_videos d `prefix_of` raw_youtube_videos (apply_write st d)
  ∧ stg_processed_videos d `prefix_of` stg_processed_videos (apply_write st d).
Proof.
  destruct st as [| |r|vid]; cbn; try done.
  - split; [|done]. unfold merge_raw. case_decide; [done|].
    by apply prefix_app_r.
  - split; [done|]. by apply prefix_app_r.
Qed.

(** X2. A run of [load_bronze] only appends: the rows the raw store and
    the ledger held before the run are still there, unchanged and in
    the same place, whatever fails; and every entry the run adds to the
    ledger is a SUCCESS entry for a candidate of the batch whose
    identifier was not in the ledger.  The same holds for the tables
    after any sequence of runs. *)
Theorem load_bronze_appends_only (env : environment)
        (videos : option (list video)) (db : database) :
  let out := run (load_bronze env videos) db in
  raw_youtube_videos db `prefix_of` raw_youtube_videos (tables out)
  ∧ stg_processed_videos db `prefix_of` stg_processed_videos (tables out)
  ∧ (∀ p, p ∈ stg_processed_videos (tables out) →
          p ∈ stg_processed_videos db
          ∨ ∃ v, v ∈ default [] videos
                 ∧ p = processed_row_of_video v
                 ∧ video_id v ∉ ledger_ids db)
  ∧ (∀ runs,
       raw_youtube_videos db `prefix_of` raw_youtube_videos (load_runs runs db)
       ∧ stg_processed_videos db
           `prefix_of` stg_processed_videos (load_runs runs db)).
Proof.
  intros out.
  assert (∀ env videos d,
            raw_youtube_videos d
              `prefix_of` raw_youtube_videos (tables (run (load_bronze env videos) d))
            ∧ stg_processed_videos d
              `prefix_of` stg_processed_videos (tables (run (load_bronze env videos) d)))
    as Hgrow.
  { intros env' videos' d.
    destruct (load_bronze_run_cases env' videos' d)
      as [-> | (batch & -> & Hne & Hout)]; [done|].
    apply (load_outcome_inv
             (λ d', raw_youtube_videos d `prefix_of` raw_youtube_videos d'
                    ∧ stg_processed_videos d `prefix_of` stg_processed_videos d')
             _ _ _ _ _ _ Hout); [|done].
    intros e d' _ [Hraw Hstg]. destruct e; try done.
    cbn [apply_events foldl].
    destruct (apply_write_appends st d') as [Hraw' Hstg'].
    split; by etrans. }
  destruct (Hgrow env videos db) as [Hraw Hstg].
  split_and!; [done | done | |].
  - subst out.
    destruct (load_bronze_run_cases env videos db)
      as [-> | (batch & -> & Hne & Hout)]; [by left|].
    apply (load_outcome_inv
             (λ d, ∀ p, p ∈ stg_processed_videos d →
                p ∈ stg_processed_videos db ∨ _) _ _ _ _ _ _ Hout);
      [|by left].
    intros e d (v & Hv & [-> | ->])%elem_of_write_events Hd p;
      cbn [apply_events foldl apply_write stg_processed_videos]; [apply Hd|].
    intros [Hp | ->%list_elem_of_singleton]%elem_of_app; [by apply Hd|].
    right. exists v. apply list_elem_of_filter in Hv as [Hnew Hv]. done.
  - intros runs.
    apply (load_runs_inv
             (λ d, raw_youtube_videos db `prefix_of` raw_youtube_videos d
                   ∧ stg_processed_videos db `prefix_of` stg_processed_videos d));
      [|done].
    intros env' videos' d [Hr Hs]. destruct (Hgrow env' videos' d).
    split; by etrans.
Qed.

(** ** The watermark after a load *)

Lemma max_published_at_prefix rows rows' m :
  rows `prefix_of` rows' →
  max_published_at rows = Some m →
  ∃ m', max_published_at rows' = Some m' ∧ m ≤ m'.
Proof.
  intros [k ->] Hm.
  pose proof (max_published_at_spec rows) as Hspec. rewrite Hm in Hspec.
  destruct Hspec as [(r & Hr & <-) _].
  pose proof (max_published_at_spec (rows ++ k)) as Hspec'.
  destruct (max_published_at (rows ++ k)) as [m'|].
  - exists m'. split; [done|]. apply Hspec', elem_of_app. by left.
  - by destruct rows.
Qed.

Lemma watermark_reader_reliable ac tts now db :
  returned (run (watermark_reader (reliable ac tts now)) db)
  = Ok (default (now - 7 * 86400) (max_published_at (raw_youtube_videos db))).
Proof. reflexivity. Qed.

Lemma load_bronze_raw_prefix env videos db :
  raw_youtube_videos db
    `prefix_of` raw_youtube_videos (tables (run (load_bronze env videos) db)).
Proof.
  destruct (load_bronze_run_cases env videos db)
    as [-> | (batch & -> & Hne & Hout)]; [done|].
  apply (load_outcome_inv
           (λ d, raw_youtube_videos db `prefix_of` raw_youtube_videos d)
           _ _ _ _ _ _ Hout); [|done].
  intros e d _ Hd. destruct e; try done. cbn [apply_events foldl].
  etrans; [exact Hd|]. apply apply_write_appends.
Qed.

(** X3. Once the raw store holds a row, a run of [load_bronze] never
    moves the watermark backwards: the watermark read after the run,
    whatever the run did and whatever failed in it, is at least the
    watermark read before it. *)
Theorem watermark_never_decreases (env : environment)
        (videos : option (list video)) (db : database)
        (ac ac' : bool) (tts tts' : string → Z) (now now' : Z) :
  raw_youtube_videos db ≠ [] →
  ∃ w w',
    returned (run (watermark_reader (reliable ac tts now)) db) = Ok w
    ∧ returned (run (watermark_reader (reliable ac' tts' now'))
                    (tables (run (load_bronze env videos) db))) = Ok w'
    ∧ w ≤ w'.
Proof.
  intros Hne. rewrite !watermark_reader_reliable.
  destruct (max_published_at (raw_youtube_videos db)) as [m|] eqn:Hm.
  - destruct (max_published_at_prefix _ _ m
                (load_bronze_raw_prefix env videos db) Hm) as (m' & Hm' & Hle).
    exists m, m'. by rewrite Hm'.
  - pose proof (max_published_at_spec (raw_youtube_videos db)) as Hspec.
    by rewrite Hm in Hspec.
Qed.

Lemma watermark_never_decreases_witness :
  raw_youtube_videos db_with_a ≠ []
  ∧ ∃ w w',
      returned (run (watermark_reader (reliable false fixed_timestamp 1710000000))
                    db_with_a) = Ok w
      ∧ returned (run (watermark_reader (reliable true fixed_timestamp 1720000000))
                      (tables (run (load_bronze env_autocommit_fault
                                                (Some [video_a; video_b]))
                                   db_with_a))) = Ok w'
      ∧ w ≤ w'.
Proof.
  split; [done|]. by apply watermark_never_decreases.
Defined.

(** ** Identifiers of the raw store and of the ledger *)

Lemma raw_ids_load_videos env l db i :
  i ∈ raw_ids (load_videos env l db) ↔ i ∈ raw_ids db ∨ i ∈ video_id <$> l.
Proof.
  revert db. induction l as [|v l IH]; intros db.
  - cbn. rewrite elem_of_nil. tauto.
  - rewrite load_videos_cons, IH, fmap_cons, elem_of_cons.
    unfold raw_ids, load_video. cbn. unfold merge_raw. cbn.
    case_decide as Hin.
    + split; [tauto|]. intros [? | [-> | ?]]; tauto.
    + rewrite fmap_app, elem_of_app. cbn.
      rewrite list_elem_of_singleton. tauto.
Qed.

(** X4. If the raw store and the ledger hold the same identifiers before
    a run of [load_bronze], they do after it, provided the run returns
    or the session is not in autocommit mode; and when the run returns,
    every identifier of the batch is in both. *)
Theorem raw_and_ledger_ids_agree (env : environment)
        (videos : option (list video)) (db : database) :
  (∀ i, i ∈ raw_ids db ↔ i ∈ ledger_ids db) →
  let out := run (load_bronze env videos) db in
  returned out ≠ Exn ∨ autocommit env = false →
  (∀ i, i ∈ raw_ids (tables out) ↔ i ∈ ledger_ids (tables out))
  ∧ (returned out ≠ Exn →
     ∀ v, v ∈ default [] videos →
          video_id v ∈ ledger_ids (tables out)
          ∧ video_id v ∈ raw_ids (tables out)).
Proof.
  intros Hagree out Hmode. subst out.
  assert (∀ new i, i ∈ raw_ids (load_videos env new db)
                   ↔ i ∈ ledger_ids (load_videos env new db)) as Hfull.
  { intros new i.
    rewrite raw_ids_load_videos, ledger_ids_load_videos, elem_of_app, Hagree.
    done. }
  destruct videos as [[|v0 vs]|];
    [split; [done | by intros _ v ?%elem_of_nil] |
     | split; [done | by intros _ v ?%elem_of_nil]].
  set (batch := v0 :: vs) in *.
  pose proof (load_bronze_outcome env db batch ltac:(done)) as Hout.
  change (default [] (Some batch)) with batch.
  destruct (run (load_bronze env (Some batch)) db) as [[r db'] tr].
  unfold returned, tables, calls in *. cbn [fst snd] in *.
  split.
  - destruct (load_outcome_whole_or_nothing _ _ _ _ _ _ Hout Hmode)
      as [-> | ->]; [done | apply Hfull].
  - intros Hr v Hv. destruct r as [n|]; [|done].
    destruct (load_outcome_returned _ _ _ _ _ _ n Hout eq_refl) as [_ ->].
    assert (video_id v ∈ ledger_ids (load_videos env (new_videos_of db batch) db))
      as Hin.
    { rewrite ledger_ids_load_videos, elem_of_app.
      destruct (decide (video_id v ∈ ledger_ids db)) as [?|Hnew]; [by left|].
      right. apply list_elem_of_fmap_2. by apply list_elem_of_filter. }
    split; [done | by apply Hfull].
Qed.

Lemma raw_and_ledger_ids_agree_witness :
  (∀ i, i ∈ raw_ids db_with_a ↔ i ∈ ledger_ids db_with_a)
  ∧ (∀ i, i ∈ raw_ids (tables (run (load_bronze env_transactional_fault
                                                (Some [video_a; video_b]))
                                   db_with_a))
          ↔ i ∈ ledger_ids (tables (run (load_bronze env_transactional_fault
                                                     (Some [video_a; video_b]))
                                        db_with_a))).
Proof.
  assert (∀ i, i ∈ raw_ids db_with_a ↔ i ∈ ledger_ids db_with_a) as Hagree
    by done.
  split; [exact Hagree|].
  apply (raw_and_ledger_ids_agree env_transactional_fault
           (Some [video_a; video_b]) db_with_a Hagree).
  by right.
Defined.

(** ** The tables after a run that returns *)

Lemma load_videos_fresh env l db :
  NoDup (video_id <$> l) →
  (∀ v, v ∈ l → video_id v ∉ raw_ids db) →
  load_videos env l db =
  {| raw_youtube_videos :=
       raw_youtube_videos db ++ (raw_row_of_video env <$> l);
     stg_processed_videos :=
       stg_processed_videos db ++ (processed_row_of_video <$> l) |}.
Proof.
  revert db. induction l as [|v l IH]; intros db Hnd Hfresh.
  - cbn. rewrite !app_nil_r. by destruct db.
  - rewrite load_videos_cons. rewrite fmap_cons in Hnd.
    apply NoDup_cons in Hnd as [Hv Hnd].
    assert (load_video env db v
            = {| raw_youtube_videos :=
                   raw_youtube_videos db ++ [raw_row_of_video env v];
                 stg_processed_videos :=
                   stg_processed_videos db ++ [processed_row_of_video v] |})
      as Hone.
    { unfold load_video. cbn. rewrite merge_raw_fresh; [done|].
      apply Hfresh. by left. }
    rewrite IH; [| done |].
    + rewrite Hone. cbn. by rewrite <-!app_assoc.
    + intros w Hw. rewrite Hone. unfold raw_ids. cbn. rewrite fmap_app.
      intros [Hin | Hin%list_elem_of_singleton]%elem_of_app.
      * by apply (Hfresh w); [right|].
      * apply Hv. cbn in Hin. rewrite <-Hin. by apply list_elem_of_fmap_2.
Qed.

(** X5. When no storage call fails, the batch has no duplicate
    identifier and every identifier of the raw store is in the ledger,
    [load_bronze] appends to the raw store the truncated rows of the
    candidates whose identifier is not in the ledger, in batch order,
    appends their SUCCESS entries to the ledger in the same order, and
    returns their number. *)
Theorem load_bronze_closed_form (ac : bool) (tts : string → Z) (now : Z)
        (videos : list video) (db : database) :
  NoDup (video_id <$> videos) →
  (∀ i, i ∈ raw_ids db → i ∈ ledger_ids db) →
  let env := reliable ac tts now in
  let new := new_videos_of db videos in
  let out := run (load_bronze env (Some videos)) db in
  returned out = Ok (Z.of_nat (length new))
  ∧ tables out =
    {| raw_youtube_videos :=
         raw_youtube_videos db ++ (raw_row_of_video env <$> new);
       stg_processed_videos :=
         stg_processed_videos db ++ (processed_row_of_video <$> new) |}.
Proof.
  intros Hnd Hsub env new out. subst out new env.
  unfold returned, tables. rewrite load_bronze_reliable. cbn [fst snd].
  change (default [] (Some videos)) with videos. split; [done|].
  apply load_videos_fresh.
  - eapply sublist_NoDup; [exact Hnd|].
    apply fmap_sublist, sublist_filter.
  - intros v [Hv _]%list_elem_of_filter Hin. by apply Hv, Hsub.
Qed.

Lemma load_bronze_closed_form_witness :
  NoDup (video_id <$> [video_a; video_b])
  ∧ (∀ i, i ∈ raw_ids db_with_a → i ∈ ledger_ids db_with_a)
  ∧ tables (run (load_bronze (reliable true fixed_timestamp 1710000000)
                             (Some [video_a; video_b])) db_with_a)
    = {| raw_youtube_videos :=
           raw_youtube_videos db_with_a
           ++ [raw_row_of_video (reliable true fixed_timestamp 1710000000)
                                video_b];
         stg_processed_videos :=
           stg_processed_videos db_with_a
           ++ [processed_row_of_video video_b] |}.
Proof.
  assert (NoDup (video_id <$> [video_a; video_b])) as Hnd.
  { cbn. apply NoDup_cons. split; [|apply NoDup_singleton].
    by intros ?%list_elem_of_singleton. }
  assert (∀ i, i ∈ raw_ids db_with_a → i ∈ ledger_ids db_with_a) as Hsub
    by done.
  split_and!; [exact Hnd | exact Hsub |].
  apply (load_bronze_closed_form true fixed_timestamp 1710000000
           [video_a; video_b] db_with_a Hnd Hsub).
Defined.

Lemma raw_length_load_videos_le env l db :
  (length (raw_youtube_videos (load_videos env l db))
   ≤ length (raw_youtube_videos db) + length l)%nat.
Proof.
  revert db. induction l as [|v l IH]; intros db.
  - cbn. lia.
  - rewrite load_videos_cons. etrans; [apply IH|].
    unfold load_video. cbn. unfold merge_raw.
    case_decide; [|rewrite length_app]; cbn; lia.
Qed.

(** X6. Whatever the batch holds and whatever the transaction mode, the
    number a run of [load_bronze] returns is the number of entries it
    added to the ledger, and is at least the number of rows it added to
    the raw store: a MERGE that finds its identifier inserts nothing but
    is counted. *)
Theorem load_bronze_count_bounds_rows (env : environment)
        (videos : option (list video)) (db : database) (c : Z) :
  let out := run (load_bronze env videos) db in
  returned out = Ok c →
  Z.of_nat (length (stg_processed_videos (tables out)))
  = Z.of_nat (length (stg_processed_videos db)) + c
  ∧ Z.of_nat (length (raw_youtube_videos (tables out)))
    ≤ Z.of_nat (length (raw_youtube_videos db)) + c.
Proof.
  intros out Hr. subst out.
  destruct videos as [[|v0 vs]|];
    [injection Hr as <-; cbn; lia | | injection Hr as <-; cbn; lia].
  pose proof (load_bronze_outcome env db (v0 :: vs) ltac:(done)) as Hout.
  destruct (run (load_bronze env (Some (v0 :: vs))) db) as [[r db'] tr].
  unfold returned, tables in *. cbn [fst snd] in *.
  destruct (load_outcome_returned _ _ _ _ _ _ c Hout Hr) as [-> ->].
  rewrite stg_length_load_videos.
  pose proof (raw_length_load_videos_le env (new_videos_of db (v0 :: vs)) db).
  lia.
Qed.

Lemma load_bronze_count_bounds_rows_witness :
  returned (run (load_bronze (reliable true fixed_timestamp 1710000000)
                             (Some [video_b; video_b])) db_with_a) = Ok 2
  ∧ Z.of_nat (length (raw_youtube_videos
       (tables (run (load_bronze (reliable true fixed_timestamp 1710000000)
                                 (Some [video_b; video_b])) db_with_a))))
    ≤ Z.of_nat (length (raw_youtube_videos db_with_a)) + 2.
Proof.
  assert (returned (run (load_bronze (reliable true fixed_timestamp 1710000000)
                                     (Some [video_b; video_b])) db_with_a)
          = Ok 2) as Hr by (vm_compute; reflexivity).
  split; [exact Hr|].
  apply (load_bronze_count_bounds_rows _ _ _ 2 Hr).
Defined.

(** ** Retrying a failed load *)

Lemma raw_row_of_video_ext e e0 v :
  (∀ s, to_timestamp e s = to_timestamp e0 s) →
  raw_row_of_video e v = raw_row_of_video e0 v.
Proof. intros Hts. unfold raw_row_of_video. by rewrite Hts. Qed.

Lemma write_events_ext e e0 l :
  (∀ s, to_timestamp e s = to_timestamp e0 s) →
  write_events e l = write_events e0 l.
Proof.
  intros Hts. induction l as [|v l IH]; [done|].
  by rewrite !write_events_cons, IH, (raw_row_of_video_ext e e0).
Qed.

Lemma load_videos_app env l1 l2 db :
  load_videos env (l1 ++ l2) db = load_videos env l2 (load_videos env l1 db).
Proof. unfold load_videos. apply foldl_app. Qed.

Lemma merge_raw_idem r d :
  apply_write (MergeRaw r) (apply_write (MergeRaw r) d)
  = apply_write (MergeRaw r) d.
Proof.
  cbn. f_equal.
  destruct (decide (raw_video_id r ∈ raw_video_id <$> raw_youtube_videos d))
    as [Hin|Hin].
  - by rewrite !(merge_raw_present r (raw_youtube_videos d)).
  - rewrite (merge_raw_fresh r (raw_youtube_videos d)) by done.
    apply merge_raw_present. rewrite fmap_app, elem_of_app. right. by left.
Qed.

Lemma partial_load_beyond env db l j b :
  (length l ≤ j)%nat → partial_load env db l j b = load_videos env l db.
Proof.
  intros Hj. unfold partial_load.
  rewrite take_ge, lookup_ge_None_2 by done. by destruct b.
Qed.

Lemma partial_load_start env db l : partial_load env db l 0 false = db.
Proof. reflexivity. Qed.

Lemma take_events_partial env l db k :
  apply_events (take k (write_events env l)) db
  = partial_load env db l (Nat.div2 k) (Nat.odd k).
Proof.
  revert db k. induction l as [|v l IH]; intros db k.
  - cbn [write_events mbind list_bind]. rewrite take_nil.
    by rewrite partial_load_beyond by apply Nat.le_0_l.
  - rewrite write_events_cons. destruct k as [|[|k]]; [done | done |].
    change (apply_events (take k (write_events env l)) (load_video env db v)
            = partial_load env (load_video env db v) l
                (Nat.div2 k) (Nat.odd k)).
    apply IH.
Qed.

Lemma ledger_ids_partial env db l j b :
  ledger_ids (partial_load env db l j b)
  = ledger_ids db ++ (video_id <$> take j l).
Proof.
  unfold partial_load. rewrite <-(ledger_ids_load_videos env).
  destruct b; [|done]. by destruct (l !! j).
Qed.

Lemma filter_all {A} (P : A → Prop) `{!∀ x, Decision (P x)} (l : list A) :
  (∀ x, x ∈ l → P x) → filter P l = l.
Proof.
  induction l as [|x l IH]; intros Hall; [done|].
  rewrite filter_cons_True by (apply Hall; by left).
  f_equal. apply IH. intros y Hy. apply Hall. by right.
Qed.

Lemma filter_not_in_take {A B} `{EqDecision B} (f : A → B) (l : list A) j :
  NoDup (f <$> l) →
  filter (λ x, f x ∉ f <$> take j l) l = drop j l.
Proof.
  revert j. induction l as [|x l IH]; intros j Hnd; [by destruct j|].
  rewrite fmap_cons in Hnd. apply NoDup_cons in Hnd as [Hx Hnd].
  destruct j as [|j].
  - cbn [take drop]. apply filter_all. intros y _. apply not_elem_of_nil.
  - cbn [take drop]. rewrite fmap_cons, filter_cons_False by set_solver.
    rewrite <-(IH j Hnd). apply filter_ext_elem. intros y Hy.
    rewrite elem_of_cons.
    assert (f y ≠ f x) by (intros Heq; apply Hx; rewrite <-Heq;
                           by apply list_elem_of_fmap_2).
    tauto.
Qed.

Lemma new_videos_of_partial env db videos j b :
  NoDup (video_id <$> videos) →
  new_videos_of (partial_load env db (new_videos_of db videos) j b) videos
  = drop j (new_videos_of db videos).
Proof.
  intros Hnd. unfold new_videos_of at 1. rewrite ledger_ids_partial.
  rewrite <-(filter_not_in_take video_id).
  - set (T := take j (new_videos_of db videos)).
    unfold new_videos_of. rewrite list_filter_filter.
    apply filter_ext_elem. intros v _. rewrite elem_of_app. tauto.
  - eapply sublist_NoDup; [exact Hnd|].
    apply fmap_sublist, sublist_filter.
Qed.

Lemma load_video_partial env db l j b v :
  l !! j = Some v →
  load_video env (partial_load env db l j b) v
  = load_videos env (take (S j) l) db.
Proof.
  intros Hj. unfold partial_load. rewrite Hj.
  rewrite (take_S_r _ _ _ Hj), load_videos_app.
  cbn [load_videos foldl]. destruct b; [|done].
  unfold load_video. by rewrite merge_raw_idem.
Qed.

Lemma load_videos_drop_partial env db l j b :
  load_videos env (drop j l) (partial_load env db l j b)
  = load_videos env l db.
Proof.
  destruct (l !! j) as [v|] eqn:Hj.
  - rewrite (drop_S _ _ _ Hj), load_videos_cons, (load_video_partial _ _ _ _ _ _ Hj).
    by rewrite <-load_videos_app, take_drop.
  - apply lookup_ge_None in Hj.
    by rewrite drop_ge, partial_load_beyond by done.
Qed.

Lemma partial_load_partial env db l j b j' b' :
  partial_load env (partial_load env db l j b) (drop j l) j' b'
  = partial_load env db l (j + j')
      (match j' with O => b || b' | S _ => b' end).
Proof.
  destruct (l !! j) as [v|] eqn:Hj.
  - rewrite (drop_S _ _ _ Hj). destruct j' as [|j'].
    + rewrite Nat.add_0_r. unfold partial_load at 1.
      cbn [take load_videos foldl].
      change ((v :: drop (S j) l) !! 0%nat) with (Some v).
      unfold partial_load. rewrite Hj.
      destruct b, b'; cbn [orb]; try done. apply merge_raw_idem.
    + unfold partial_load at 1. cbn [take].
      change ((v :: drop (S j) l) !! S j') with (drop (S j) l !! j').
      rewrite load_videos_cons.
      rewrite (load_video_partial _ _ _ _ _ _ Hj), <-load_videos_app.
      rewrite take_take_drop, lookup_drop.
      replace (j + S j')%nat with (S j + j')%nat by lia. reflexivity.
  - apply lookup_ge_None in Hj. rewrite drop_ge by done.
    by rewrite !partial_load_beyond by (cbn; lia).
Qed.

(** A run on the same batch, from tables a failed run left, leaves such
    tables again, and the full load when it returns. *)
Lemma load_bronze_from_partial e e0 videos db j b :
  (∀ s, to_timestamp e s = to_timestamp e0 s) →
  NoDup (video_id <$> videos) →
  let new := new_videos_of db videos in
  let out := run (load_bronze e (Some videos)) (partial_load e0 db new j b) in
  (∃ j' b', tables out = partial_load e0 db new j' b')
  ∧ (returned out ≠ Exn → tables out = load_videos e0 new db).
Proof.
  intros Hts Hnd new out. subst out.
  set (p := partial_load e0 db new j b).
  assert (∀ k, ∃ j' b',
            apply_events (take k (write_events e (drop j new))) p
            = partial_load e0 db new j' b') as Hpart.
  { intros k. rewrite (write_events_ext e e0) by done.
    rewrite take_events_partial. unfold p. rewrite partial_load_partial.
    eauto. }
  assert (apply_events (write_events e (drop j new)) p
          = load_videos e0 new db) as Hfull.
  { rewrite (write_events_ext e e0) by done.
    rewrite apply_events_load_videos. apply load_videos_drop_partial. }
  destruct videos as [|v0 vs].
  { split; [by exists j, b|]. intros _.
    change (p = load_videos e0 new db). unfold p.
    apply partial_load_beyond, Nat.le_0_l. }
  set (videos := v0 :: vs) in *.
  pose proof (load_bronze_outcome e p videos ltac:(done)) as Hout.
  destruct (run (load_bronze e (Some videos)) p) as [[r db'] tr].
  unfold returned, tables. cbn [fst snd] in *.
  assert (new_videos_of p videos = drop j new) as Hnew'
    by apply (new_videos_of_partial e0 db videos j b Hnd).
  destruct Hout as [| | ? ? Hnone | k W ? ? ? ? ? | W ? ? ? ? ? | W ? ? ? ? ?];
    try subst W; rewrite ?Hnew' in *.
  - split; [by exists j, b | done].
  - split; [by exists j, b | done].
  - split; [by exists j, b|]. intros _.
    rewrite <-Hfull, Hnone. done.
  - split; [|done]. destruct (autocommit e); [apply Hpart | by exists j, b].
  - split; [|done]. destruct (autocommit e); [|by exists j, b].
    rewrite <-(firstn_all (write_events e (drop j new))). apply Hpart.
  - split; [|by rewrite Hfull].
    rewrite <-(firstn_all (write_events e (drop j new))). apply Hpart.
Qed.

(** X7. A batch without duplicate identifiers can be retried: when the
    scheduler runs [load_bronze] again and again on the same batch after
    failures, in whatever transaction mode and whichever storage calls
    failed, the first attempt that returns leaves the raw store and the
    ledger exactly as one run without failure would have left them. *)
Theorem load_retries_converge (envs : list environment)
        (videos : list video) (db : database)
        (ac : bool) (tts : string → Z) (now : Z) (n : Z) (db' : database) :
  NoDup (video_id <$> videos) →
  Forall (λ e, ∀ s, to_timestamp e s = tts s) envs →
  load_with_retries envs (Some videos) db = (Ok n, db') →
  db' = tables (run (load_bronze (reliable ac tts now) (Some videos)) db).
Proof.
  intros Hnd Hts Hrun. unfold tables. rewrite load_bronze_reliable.
  cbn [fst snd]. change (default [] (Some videos)) with videos.
  set (e0 := reliable ac tts now). set (new := new_videos_of db videos).
  rewrite <-(partial_load_start e0 db new) in Hrun.
  revert db' n Hrun. generalize 0%nat false.
  induction Hts as [|e envs He Hts IH]; intros j b db' n Hrun; [done|].
  cbn [load_with_retries] in Hrun.
  destruct (load_bronze_from_partial e e0 videos db j b He Hnd)
    as [(j' & b' & Hpart) Hfull].
  fold new in Hpart, Hfull.
  destruct (returned (run (load_bronze e (Some videos))
                          (partial_load e0 db new j b))) as [m|] eqn:Hret.
  - injection Hrun as <- <-. by apply Hfull.
  - destruct envs as [|e' envs']; [done|].
    rewrite Hpart in Hrun. by eapply IH.
Qed.

Lemma load_retries_converge_witness :
  NoDup (video_id <$> [video_a; video_b])
  ∧ Forall (λ e, ∀ s, to_timestamp e s = fixed_timestamp s)
           [env_autocommit_fault_insert; env_autocommit_fault;
            reliable true fixed_timestamp 1710000500]
  ∧ load_with_retries
      [env_autocommit_fault_insert; env_autocommit_fault;
       reliable true fixed_timestamp 1710000500]
      (Some [video_a; video_b]) empty_db
    = (Ok 1,
       tables (run (load_bronze (reliable false fixed_timestamp 1710000000)
                                (Some [video_a; video_b])) empty_db)).
Proof.
  assert (NoDup (video_id <$> [video_a; video_b])) as Hnd.
  { cbn. apply NoDup_cons. split; [|apply NoDup_singleton].
    by intros ?%list_elem_of_singleton. }
  assert (Forall (λ e, ∀ s, to_timestamp e s = fixed_timestamp s)
                 [env_autocommit_fault_insert; env_autocommit_fault;
                  reliable true fixed_timestamp 1710000500]) as Hts
    by (repeat constructor).
  split_and!; [exact Hnd | exact Hts |].
  destruct (load_with_retries
              [env_autocommit_fault_insert; env_autocommit_fault;
               reliable true fixed_timestamp 1710000500]
              (Some [video_a; video_b]) empty_db) as [r db'] eqn:Hrun.
  assert (r = Ok 1) as -> by (vm_compute in Hrun; congruence).
  f_equal.
  exact (load_retries_converge _ _ _ false fixed_timestamp 1710000000 1 db'
           Hnd Hts Hrun).
Defined.

(** * Further properties of the extraction *)

(** ** The task as a whole *)

Lemma watermark_reader_run env db :
  let w := default (current_timestamp env - 7 * seconds_per_day)
                   (max_published_at (raw_youtube_videos db)) in
  run (watermark_reader env) db =
  if faults env 0%nat then (Exn, db, [Connect])
  else if faults env 2%nat
  then (Exn, db, [Connect; OpenCursor; Execute SelectWatermark])
  else if faults env 4%nat
  then (Exn, db, [Connect; OpenCursor; Execute SelectWatermark;
                  CloseCursor; CloseConnection])
  else (Ok w, db, [Connect; OpenCursor; Execute SelectWatermark;
                   CloseCursor; CloseConnection]).
Proof.
  intros w. unfold run, watermark_reader.
  rewrite bind_run. unfold get_snowflake_connection at 1.
  rewrite storage_call_run. cbn [trace length persisted view fst snd].
  destruct (faults env 0%nat); [done|].
  rewrite bind_run. unfold open_cursor at 1, local_call at 1.
  cbn [trace persisted view app].
  rewrite bind_run. unfold execute_select_watermark.
  rewrite storage_call_run. cbn [trace length persisted view fst snd app].
  destruct (faults env 2%nat); [done|].
  rewrite bind_run. unfold close_cursor at 1, local_call at 1.
  cbn [trace persisted view app].
  rewrite bind_run. unfold close_connection.
  rewrite storage_call_run. cbn [trace length persisted view fst snd app].
  by destruct (faults env 4%nat).
Qed.

Lemma extract_youtube_run env py_lower py_int cl db :
  run (extract_youtube env py_lower py_int cl) db =
  if import_build cl then
    match run (watermark_reader env) db with
    | (Ok w, db', tr) =>
        match strftime cl w, build cl with
        | Some published_after, Some search =>
            let unique :=
              deduplicate (fetch_all py_lower py_int search published_after
                                     SEARCH_QUERIES).1 in
            let n := Z.of_nat (length unique) in
            if xcom_push_videos cl unique && xcom_push_video_count cl n
            then (Ok (unique, n), db', tr)
            else (Exn, db', tr)
        | _, _ => (Exn, db', tr)
        end
    | (Exn, db', tr) => (Exn, db', tr)
    end
  else (Exn, db, []).
Proof.
  unfold run, extract_youtube. rewrite bind_run.
  unfold client_call at 1, client_step at 1.
  destruct (import_build cl); [|done].
  rewrite bind_run.
  destruct (watermark_reader env _) as [[w|] s]; [|done].
  rewrite bind_run. unfold client_step at 1.
  destruct (strftime cl w) as [pa|]; [|done].
  rewrite bind_run. unfold client_step at 1.
  destruct (build cl) as [search|]; [|done].
  cbn zeta. rewrite bind_run. unfold client_call at 1, client_step at 1.
  destruct (xcom_push_videos cl _); [|done].
  rewrite bind_run. unfold client_call at 1, client_step at 1.
  by destruct (xcom_push_video_count cl _).
Qed.

Lemma deduplicate_NoDup l : NoDup (video_id <$> deduplicate l).
Proof. apply dedup_loop_NoDup. Qed.

(** What a run of [extract_youtube] that returns has done. *)
Lemma extract_youtube_returned env py_lower py_int cl db vs n :
  returned (run (extract_youtube env py_lower py_int cl) db) = Ok (vs, n) →
  let w := default (current_timestamp env - 7 * seconds_per_day)
                   (max_published_at (raw_youtube_videos db)) in
  ∃ published_after search,
    strftime cl w = Some published_after
    ∧ build cl = Some search
    ∧ vs = deduplicate (fetch_all py_lower py_int search published_after
                                  SEARCH_QUERIES).1
    ∧ n = Z.of_nat (length vs)
    ∧ import_build cl = true
    ∧ xcom_push_videos cl vs = true
    ∧ xcom_push_video_count cl n = true
    ∧ faults env 0%nat = false ∧ faults env 2%nat = false
    ∧ faults env 4%nat = false.
Proof.
  rewrite extract_youtube_run, watermark_reader_run. unfold returned.
  destruct (import_build cl); [|done].
  destruct (faults env 0%nat); [done|].
  destruct (faults env 2%nat); [done|].
  destruct (faults env 4%nat); [done|].
  set (w := default _ _). intros Hr. cbn [fst snd] in Hr.
  destruct (strftime cl w) as [pa|]; [|done].
  destruct (build cl) as [search|]; [|done]. cbn zeta in Hr.
  destruct (xcom_push_videos cl _) eqn:Hpv; [|done].
  destruct (xcom_push_video_count cl _) eqn:Hpc; [|done].
  cbn [andb fst] in Hr. injection Hr as <- <-.
  by exists pa, search.
Qed.

(** X8. [extract_youtube] only reads the warehouse: whatever fails, on
    the warehouse or on the client, it leaves the raw store and the
    ledger as they were, calls neither a write statement nor commit, and
    makes an initial part of the five calls of the watermark read, none
    at all when the import fails.  It returns exactly when the import,
    the storage calls, [strftime], [build] and the two pushes to XCom
    succeed, whatever the search requests do; and when it returns, the
    count is the length of the list it pushes, whose identifiers are
    pairwise distinct, and the list is the de-duplicated result of the
    query loop for the watermark as [strftime] renders it. *)
Theorem extract_youtube_read_only (env : environment)
        (py_lower : string → string) (py_int : string → option Z)
        (cl : client) (db : database) :
  let out := run (extract_youtube env py_lower py_int cl) db in
  let w := default (current_timestamp env - 7 * seconds_per_day)
                   (max_published_at (raw_youtube_videos db)) in
  tables out = db
  ∧ Forall (λ e, is_write e = false ∧ e ≠ Commit) (calls out)
  ∧ calls out `prefix_of` [Connect; OpenCursor; Execute SelectWatermark;
                           CloseCursor; CloseConnection]
  ∧ (import_build cl = false → calls out = [])
  ∧ (returned out ≠ Exn
     ↔ import_build cl = true
       ∧ faults env 0%nat = false ∧ faults env 2%nat = false
       ∧ faults env 4%nat = false
       ∧ ∃ published_after search,
           strftime cl w = Some published_after
           ∧ build cl = Some search
           ∧ let unique :=
               deduplicate (fetch_all py_lower py_int search published_after
                                      SEARCH_QUERIES).1 in
             xcom_push_videos cl unique = true
             ∧ xcom_push_video_count cl (Z.of_nat (length unique)) = true)
  ∧ (∀ vs n, returned out = Ok (vs, n) →
       n = Z.of_nat (length vs)
       ∧ NoDup (video_id <$> vs)
       ∧ calls out = [Connect; OpenCursor; Execute SelectWatermark;
                      CloseCursor; CloseConnection]
       ∧ ∃ published_after search,
           strftime cl w = Some published_after
           ∧ build cl = Some search
           ∧ vs = deduplicate (fetch_all py_lower py_int search
                                         published_after SEARCH_QUERIES).1).
Proof.
  intros out w. subst out.
  rewrite extract_youtube_run, watermark_reader_run. fold w.
  unfold returned, tables, calls.
  destruct (import_build cl) eqn:Him; cbn [fst snd].
  2:{ split_and!; [done | done | apply prefix_nil | done | | done].
      split; [done | by intros [? _]]. }
  destruct (faults env 0%nat) eqn:F0; [|destruct (faults env 2%nat) eqn:F2;
    [|destruct (faults env 4%nat) eqn:F4]]; cbn [fst snd].
  - split_and!; [done | by repeat constructor | by eexists | done | | done].
    split; [done | by intros (_ & ? & _)].
  - split_and!; [done | by repeat constructor | by eexists | done | | done].
    split; [done | by intros (_ & _ & ? & _)].
  - split_and!; [done | by repeat constructor | by eexists | done | | done].
    split; [done | by intros (_ & _ & _ & ? & _)].
  - destruct (strftime cl w) as [pa|] eqn:Hfmt;
      [destruct (build cl) as [search|] eqn:Hbuild|]; cbn zeta.
    + set (unique := deduplicate _).
      destruct (xcom_push_videos cl unique) eqn:Hpv;
        [destruct (xcom_push_video_count cl _) eqn:Hpc|];
        cbn [andb fst snd].
      * split_and!; [done | by repeat constructor | done | done | |].
        -- split; [|done]. intros _. split_and!; try done.
           exists pa, search. cbn zeta. fold unique. by rewrite Hpv, Hpc.
        -- intros vs n [= <- <-].
           split_and!; [done | apply deduplicate_NoDup | done |].
           by exists pa, search.
      * split_and!; [done | by repeat constructor | done | done | | done].
        split; [done|].
        intros (_ & _ & _ & _ & pa' & search' & [= <-] & [= <-] & _ & Hc).
        fold unique in Hc. congruence.
      * split_and!; [done | by repeat constructor | done | done | | done].
        split; [done|].
        intros (_ & _ & _ & _ & pa' & search' & [= <-] & [= <-] & Hv & _).
        fold unique in Hv. congruence.
    + split_and!; [done | by repeat constructor | done | done | | done].
      split; [done|]. by intros (_ & _ & _ & _ & pa' & search' & _ & ? & _).
    + split_and!; [done | by repeat constructor | done | done | | done].
      split; [done|]. by intros (_ & _ & _ & _ & pa' & search' & ? & _).
Qed.

(** ** The records the task hands over *)

Lemma join_nonempty sep x l : x ≠ "" → Str.join sep (x :: l) ≠ "".
Proof. intros Hx. destruct l, x; done. Qed.

Lemma food_keywords_nonempty f : f ∈ FOOD_KEYWORDS → f ≠ "".
Proof.
  intros Hf ->. revert Hf. unfold FOOD_KEYWORDS.
  rewrite !elem_of_cons, elem_of_nil. intros H.
  repeat (destruct H as [H | H]; [discriminate H|]). done.
Qed.

Lemma replace_char_length a b s :
  Str.continuation a = false → Str.continuation b = false →
  Str.len (Str.replace_char a b s) = Str.len s.
Proof.
  intros Ha Hb. induction s as [|c s IH]; [done|].
  cbn [Str.replace_char Str.len]. rewrite IH.
  case_bool_decide as Hc; [|done]. subst c. by rewrite Ha, Hb.
Qed.

Lemma replace_char_removes a b s :
  a ≠ b → Str.contains (String a "") (Str.replace_char a b s) = false.
Proof.
  intros Hab. induction s as [|c s IH]; [done|].
  cbn. rewrite IH, orb_false_r, andb_true_r.
  apply bool_decide_eq_false. case_bool_decide; congruence.
Qed.

Lemma items_before_error_subseteq py_lower py_int items :
  items_before_error py_lower py_int items ⊆ items.
Proof.
  induction items as [|it items IH]; [done|]. cbn.
  destruct (process_item py_lower py_int it); set_solver.
Qed.

Lemma deduplicate_subseteq l : deduplicate l ⊆ l.
Proof. apply sublist_subseteq, dedup_loop_sublist. Qed.

Lemma process_item_kept_shape py_lower py_int it v :
  process_item py_lower py_int it = Kept v →
  item_videoId it = Some (video_id v)
  ∧ item_title it = Some (title v)
  ∧ description v = default "" (item_description it)
  ∧ item_channelTitle it = Some (channel_title v)
  ∧ (∃ pub, item_publishedAt it = Some pub
            ∧ published_at v = Str.replace_char "T" " " (Str.take 19 pub)
            ∧ py_int (Str.take 4 pub) = Some (year v))
  ∧ url v = "https://youtube.com/watch?v=" +:+ video_id v
  ∧ mentioned_foods v
    = Str.join ","
        (matched_keywords (search_text py_lower (title v) (description v)))
  ∧ matched_keywords (search_text py_lower (title v) (description v)) ≠ [].
Proof.
  unfold process_item.
  destruct (item_title it) as [ttl|]; [|done].
  destruct (matched_keywords _) as [|f l] eqn:Hm; [done|].
  destruct (item_videoId it) as [vid|]; [|done].
  destruct (item_channelTitle it) as [chan|]; [|done].
  destruct (item_publishedAt it) as [pub|]; [|done].
  destruct (py_int (Str.take 4 pub)) as [y|] eqn:Hy; [|done].
  intros [= <-].
  cbn [video_id title description channel_title published_at url
       mentioned_foods year].
  rewrite Hm. split_and!; try done. by exists pub.
Qed.

(** X9. Every record that [extract_youtube] hands over comes from an
    item of the response of the search API to one of the five topic
    queries; it carries that item's identifier, title and channel name,
    the URL of the video with that identifier, a non-empty comma-joined
    list of the keywords found in its text, and a publication time of at
    most 19 characters in which no [T] is left. *)
Theorem extracted_videos_shape (env : environment)
        (py_lower : string → string) (py_int : string → option Z)
        (cl : client) (db : database) (vs : list video) (n : Z) (v : video) :
  returned (run (extract_youtube env py_lower py_int cl) db) = Ok (vs, n) →
  v ∈ vs →
  (∃ search q w items it,
     build cl = Some search
     ∧ q ∈ SEARCH_QUERIES ∧ search q w = Response items ∧ it ∈ items
     ∧ process_item py_lower py_int it = Kept v
     ∧ item_videoId it = Some (video_id v)
     ∧ item_title it = Some (title v)
     ∧ item_channelTitle it = Some (channel_title v))
  ∧ url v = "https://youtube.com/watch?v=" +:+ video_id v
  ∧ mentioned_foods v ≠ ""
  ∧ (∃ f, f ∈ FOOD_KEYWORDS
          ∧ is_substring f (search_text py_lower (title v) (description v)))
  ∧ (Str.len (published_at v) ≤ 19)%nat
  ∧ Str.contains "T" (published_at v) = false.
Proof.
  intros Hret Hv.
  apply extract_youtube_returned in Hret
    as (pa & search & _ & Hbuild & -> & _).
  apply deduplicate_subseteq in Hv.
  rewrite fetch_all_videos in Hv. cbn [fst] in Hv.
  apply list_elem_of_bind in Hv as (q & Hv & Hq).
  unfold query_videos in Hv.
  destruct (search q _) as [|items] eqn:Hsearch; [by apply elem_of_nil in Hv|].
  apply list_elem_of_omap in Hv as (it & Hit%items_before_error_subseteq & Hkept).
  destruct (process_item py_lower py_int it) as [| |v'] eqn:Hp; try done.
  injection Hkept as ->.
  destruct (process_item_kept_shape _ _ _ _ Hp)
    as (Hid & Httl & _ & Hchan & (pub & _ & Hpub & _) & Hurl & Hfoods & Hne).
  split_and!.
  - by eexists search, q, _, items, it.
  - done.
  - rewrite Hfoods.
    destruct (matched_keywords _) as [|f l] eqn:Hm; [done|].
    apply join_nonempty, food_keywords_nonempty.
    assert (f ∈ matched_keywords
                  (search_text py_lower (title v) (description v)))
      as Hf by (rewrite Hm; by left).
    by apply matched_keywords_spec in Hf as [? _].
  - destruct (matched_keywords _) as [|f l] eqn:Hm; [done|].
    exists f. apply matched_keywords_spec. rewrite Hm. by left.
  - rewrite Hpub, replace_char_length, take_length by done. lia.
  - rewrite Hpub. by apply replace_char_removes.
Qed.

Lemma extracted_videos_shape_witness :
  returned (run (extract_youtube (reliable false fixed_timestamp 1710000000)
                                 lower_ascii int_of_digits
                                 (dependable fixed_date search_two_down))
                empty_db)
  = Ok (deduplicate (answered_union lower_ascii int_of_digits search_two_down
                                    "2024-03-01T00:00:00Z" SEARCH_QUERIES), 3)
  ∧ video_a ∈ deduplicate
                (answered_union lower_ascii int_of_digits search_two_down
                                "2024-03-01T00:00:00Z" SEARCH_QUERIES)
  ∧ mentioned_foods video_a ≠ ""
  ∧ Str.contains "T" (published_at video_a) = false.
Proof.
  assert (returned (run (extract_youtube
                           (reliable false fixed_timestamp 1710000000)
                           lower_ascii int_of_digits
                           (dependable fixed_date search_two_down)) empty_db)
          = Ok (deduplicate
                  (answered_union lower_ascii int_of_digits search_two_down
                                  "2024-03-01T00:00:00Z" SEARCH_QUERIES), 3))
    as Hrun by (vm_compute; reflexivity).
  assert (video_a ∈ deduplicate
                      (answered_union lower_ascii int_of_digits search_two_down
                                      "2024-03-01T00:00:00Z" SEARCH_QUERIES))
    as Hin by (vm_compute; by left).
  split_and!; [exact Hrun | exact Hin | |];
    apply (extracted_videos_shape _ _ _ _ _ _ _ video_a Hrun Hin).
Defined.

(** ** Keywords that contain other keywords *)

Lemma string_app_cons x (a b : string) : String x a +:+ b = String x (a +:+ b).
Proof. reflexivity. Qed.

Lemma string_app_assoc (a b c : string) : (a +:+ b) +:+ c = a +:+ b +:+ c.
Proof. induction a as [|x a IH]; [done|]. by rewrite !string_app_cons, IH. Qed.

Lemma is_substring_trans f g s :
  is_substring f g → is_substring g s → is_substring f s.
Proof.
  intros (a & b & ->) (a' & b' & ->). exists (a' +:+ a), (b +:+ b').
  by rewrite !string_app_assoc.
Qed.

Lemma food_keywords_NoDup : NoDup FOOD_KEYWORDS.
Proof. apply (bool_decide_unpack _). by vm_compute. Qed.

(** X10. The keywords recorded for a text come in configuration order,
    each once; and a configured keyword that occurs inside another one
    is recorded whenever that other one is (with [energy gel] comes
    [gel], with [carbs] comes [carb]). *)
Theorem matched_keywords_closed (text f g : string) :
  f ∈ FOOD_KEYWORDS →
  is_substring f g →
  g ∈ matched_keywords text →
  f ∈ matched_keywords text
  ∧ matched_keywords text `sublist_of` FOOD_KEYWORDS
  ∧ NoDup (matched_keywords text).
Proof.
  intros Hf Hfg [Hg Hgt]%matched_keywords_spec. split_and!.
  - apply matched_keywords_spec. split; [done|]. by eapply is_substring_trans.
  - apply sublist_filter.
  - apply NoDup_filter, food_keywords_NoDup.
Qed.

Lemma matched_keywords_closed_witness :
  "gel" ∈ FOOD_KEYWORDS
  ∧ is_substring "gel" "energy gel"
  ∧ "energy gel" ∈ matched_keywords (search_text lower_ascii "Energy Gel test" "")
  ∧ "gel" ∈ matched_keywords (search_text lower_ascii "Energy Gel test" "").
Proof.
  assert ("gel" ∈ FOOD_KEYWORDS) as Hf by (unfold FOOD_KEYWORDS; set_solver).
  assert (is_substring "gel" "energy gel") as Hfg by (by exists "energy ", "").
  assert ("energy gel" ∈ matched_keywords (search_text lower_ascii "Energy Gel test" ""))
    as Hg.
  { apply matched_keywords_spec. split; [unfold FOOD_KEYWORDS; set_solver|].
    by exists "", " test ". }
  split_and!; [exact Hf | exact Hfg | exact Hg |].
  apply (matched_keywords_closed _ "gel" "energy gel" Hf Hfg Hg).
Defined.

(** ** The publication time of a kept item *)

Lemma len_app (a b : string) : Str.len (a +:+ b) = (Str.len a + Str.len b)%nat.
Proof.
  induction a as [|x a IH]; [done|]. rewrite string_app_cons.
  cbn [Str.len]. rewrite IH. by destruct (Str.continuation x).
Qed.

Lemma take_app_exact (a b : string) :
  Str.starts_code_point b = true → Str.take (Str.len a) (a +:+ b) = a.
Proof.
  intros Hb. induction a as [|x a IH].
  - destruct b as [|c b]; [done|].
    change ("" +:+ String c b) with (String c b).
    cbn [Str.len Str.take Str.starts_code_point] in *.
    by destruct (Str.continuation c).
  - rewrite string_app_cons. cbn [Str.len Str.take].
    destruct (Str.continuation x); by rewrite IH.
Qed.

Lemma take_app_short n (a b : string) :
  (n < Str.len a)%nat → Str.take n (a +:+ b) = Str.take n a.
Proof.
  revert n. induction a as [|x a IH]; intros n Hn; cbn [Str.len] in Hn;
    [lia|].
  rewrite string_app_cons. cbn [Str.take].
  destruct (Str.continuation x).
  - by rewrite IH.
  - destruct n as [|n]; [done|]. by rewrite IH by lia.
Qed.

Lemma replace_char_app a b (s t : string) :
  Str.replace_char a b (s +:+ t)
  = Str.replace_char a b s +:+ Str.replace_char a b t.
Proof.
  induction s as [|c s IH]; [done|]. rewrite string_app_cons. cbn.
  by rewrite IH.
Qed.

Lemma replace_char_absent a b s :
  Str.contains (String a "") s = false → Str.replace_char a b s = s.
Proof.
  induction s as [|c s IH]; [done|]. cbn.
  rewrite andb_true_r. intros [Hc Hs]%orb_false_elim.
  apply bool_decide_eq_false in Hc.
  rewrite IH by done. by rewrite bool_decide_false by congruence.
Qed.

(** X11. For a kept item whose publication timestamp reads
    [date T time rest], with a date of 10 characters and a time of 8
    characters that hold no [T] (as in [2024-03-05T10:00:00Z]), the
    stored publication time is [date], a space and [time], and the year
    is what [int] reads in the first four characters of the date. *)
Theorem published_at_of_timestamp (py_lower : string → string)
        (py_int : string → option Z) (it : item)
        (v : video) (date time rest : string) :
  process_item py_lower py_int it = Kept v →
  item_publishedAt it = Some (date +:+ "T" +:+ time +:+ rest) →
  Str.len date = 10%nat →
  Str.len time = 8%nat →
  Str.starts_code_point rest = true →
  Str.contains "T" date = false →
  Str.contains "T" time = false →
  published_at v = date +:+ " " +:+ time
  ∧ py_int (Str.take 4 date) = Some (year v).
Proof.
  intros Hp Hpub Hd Ht Hrest HdT HtT.
  destruct (process_item_kept_shape _ _ _ _ Hp)
    as (_ & _ & _ & _ & (pub & Hpub' & -> & Hy) & _).
  rewrite Hpub in Hpub'. injection Hpub' as <-. split.
  - replace (date +:+ "T" +:+ time +:+ rest)
      with ((date +:+ "T" +:+ time) +:+ rest)
      by by rewrite !string_app_assoc.
    replace 19%nat with (Str.len (date +:+ "T" +:+ time))
      by (rewrite !len_app, Hd, Ht; reflexivity).
    rewrite take_app_exact, !replace_char_app by done.
    rewrite (replace_char_absent _ _ date), (replace_char_absent _ _ time)
      by done.
    reflexivity.
  - by rewrite take_app_short in Hy by lia.
Qed.

Lemma published_at_of_timestamp_witness :
  process_item lower_ascii int_of_digits item_gel = Kept video_a
  ∧ item_publishedAt item_gel = Some ("2024-03-05" +:+ "T" +:+ "10:00:00" +:+ "Z")
  ∧ published_at video_a = "2024-03-05" +:+ " " +:+ "10:00:00"
  ∧ int_of_digits (Str.take 4 "2024-03-05") = Some (year video_a).
Proof.
  assert (process_item lower_ascii int_of_digits item_gel = Kept video_a) as Hp
    by reflexivity.
  assert (item_publishedAt item_gel
          = Some ("2024-03-05" +:+ "T" +:+ "10:00:00" +:+ "Z")) as Hpub
    by reflexivity.
  split_and!; [exact Hp | exact Hpub | |];
    apply (published_at_of_timestamp lower_ascii int_of_digits item_gel
             video_a "2024-03-05" "10:00:00" "Z" Hp Hpub
             eq_refl eq_refl eq_refl eq_refl eq_refl).
Defined.

(** ** The de-duplication and the union of the queries *)

Lemma dedup_loop_seen l (seen : gset string) :
  dedup_loop l seen [] = filter (λ v, video_id v ∉ seen) (deduplicate l).
Proof.
  unfold deduplicate. revert seen.
  induction l as [|v l IH]; intros seen; [done|].
  rewrite !dedup_loop_cons.
  rewrite (decide_False (P := video_id v ∈ (∅ : gset string)))
    by apply not_elem_of_empty.
  rewrite (IH ({[video_id v]} ∪ ∅)). case_decide as Hseen.
  - rewrite filter_cons_False by (intros Hn; by apply Hn).
    rewrite IH, list_filter_filter. apply filter_ext_elem.
    intros w _. rewrite elem_of_union, elem_of_singleton.
    split; [|tauto]. intros Hw. split; [done|].
    intros [Heq | []%elem_of_empty]. by rewrite Heq in Hw.
  - rewrite filter_cons_True by done. f_equal.
    rewrite IH, list_filter_filter. apply filter_ext_elem.
    intros w _. rewrite !elem_of_union, elem_of_singleton, elem_of_empty.
    tauto.
Qed.

Lemma seen_union_nil (seen : gset string) :
  seen ∪ list_to_set (video_id <$> []) = seen.
Proof. set_solver. Qed.

Lemma seen_union_old (seen : gset string) (i : string) (l : list string) :
  i ∈ seen → seen ∪ list_to_set (i :: l) = seen ∪ list_to_set l.
Proof. set_solver. Qed.

Lemma seen_union_new (seen : gset string) (i : string) (l : list string) :
  seen ∪ list_to_set (i :: l) = {[i]} ∪ seen ∪ list_to_set l.
Proof. set_solver. Qed.

Lemma dedup_loop_app_list l1 l2 (seen : gset string) :
  dedup_loop (l1 ++ l2) seen []
  = dedup_loop l1 seen []
    ++ dedup_loop l2 (seen ∪ list_to_set (video_id <$> l1)) [].
Proof.
  revert seen. induction l1 as [|v l1 IH]; intros seen.
  - by rewrite seen_union_nil.
  - rewrite <-app_comm_cons, !dedup_loop_cons, fmap_cons.
    case_decide as Hseen.
    + by rewrite IH, seen_union_old.
    + by rewrite IH, <-app_comm_cons, seen_union_new.
Qed.

Lemma deduplicate_distinct l : NoDup (video_id <$> l) → deduplicate l = l.
Proof.
  unfold deduplicate.
  assert (∀ seen : gset string,
            NoDup (video_id <$> l) →
            (∀ v, v ∈ l → video_id v ∉ seen) →
            dedup_loop l seen [] = l) as Hgen.
  { induction l as [|v l IH]; intros seen Hnd Hseen; [done|].
    rewrite fmap_cons in Hnd. apply NoDup_cons in Hnd as [Hv Hnd].
    rewrite dedup_loop_cons, decide_False by (apply Hseen; by left).
    f_equal. apply IH; [done|]. intros w Hw.
    assert (video_id w ≠ video_id v)
      by (intros Heq; apply Hv; rewrite <-Heq; by apply list_elem_of_fmap_2).
    assert (video_id w ∉ seen) by (apply Hseen; by right). set_solver. }
  intros Hnd. apply Hgen; [done|]. intros. apply not_elem_of_empty.
Qed.

(** X12. De-duplicating a concatenation keeps the de-duplicated first
    list and then the records of the de-duplicated second list whose
    identifier is not in the first; de-duplicating twice changes nothing
    more, a list with distinct identifiers is left as it is, and the
    result is never longer than the input. *)
Theorem deduplicate_algebra (l1 l2 : list video) :
  deduplicate (l1 ++ l2)
  = deduplicate l1
    ++ filter (λ v, video_id v ∉ video_id <$> l1) (deduplicate l2)
  ∧ deduplicate (deduplicate l1) = deduplicate l1
  ∧ (NoDup (video_id <$> l1) → deduplicate l1 = l1)
  ∧ (length (deduplicate l1) ≤ length l1)%nat.
Proof.
  split_and!.
  - unfold deduplicate at 1. rewrite dedup_loop_app_list.
    change (dedup_loop l1 ∅ []) with (deduplicate l1). f_equal.
    rewrite dedup_loop_seen. apply filter_ext_elem. intros v _.
    rewrite elem_of_union, elem_of_list_to_set, elem_of_empty. tauto.
  - apply deduplicate_distinct, deduplicate_NoDup.
  - apply deduplicate_distinct.
  - apply sublist_length, dedup_loop_sublist.
Qed.

(** X13. The order in which the topic queries are run changes neither
    the identifiers of the videos handed over nor their number, nor which
    queries are logged as failed; it can only change which of several
    records with the same identifier is kept. *)
Theorem fetch_order_independent (py_lower : string → string)
        (py_int : string → option Z)
        (search : string → string → api_result) (w : string)
        (queries queries' : list string) :
  queries ≡ₚ queries' →
  let unique := deduplicate (fetch_all py_lower py_int search w queries).1 in
  let unique' := deduplicate (fetch_all py_lower py_int search w queries').1 in
  (∀ i, i ∈ video_id <$> unique ↔ i ∈ video_id <$> unique')
  ∧ length unique = length unique'
  ∧ (fetch_all py_lower py_int search w queries).2
    ≡ₚ (fetch_all py_lower py_int search w queries').2.
Proof.
  intros Hperm unique unique'. subst unique unique'.
  rewrite !fetch_all_videos. cbn [fst snd].
  assert (∀ i, i ∈ video_id <$> deduplicate
                     (queries ≫= query_videos py_lower py_int search w)
               ↔ i ∈ video_id <$> deduplicate
                       (queries' ≫= query_videos py_lower py_int search w))
    as Hids.
  { intros i. unfold deduplicate. rewrite !dedup_loop_ids.
    by rewrite Hperm. }
  split_and!.
  - done.
  - rewrite <-!(length_fmap video_id). apply Permutation_length.
    apply NoDup_Permutation; [apply deduplicate_NoDup.. | done].
  - by rewrite Hperm.
Qed.

Lemma fetch_order_independent_witness :
  SEARCH_QUERIES ≡ₚ reverse SEARCH_QUERIES
  ∧ length (deduplicate
              (fetch_all lower_ascii int_of_digits search_two_down
                         "2024-03-01T00:00:00Z" SEARCH_QUERIES).1)
    = length (deduplicate
                (fetch_all lower_ascii int_of_digits search_two_down
                           "2024-03-01T00:00:00Z"
                           (reverse SEARCH_QUERIES)).1).
Proof.
  assert (SEARCH_QUERIES ≡ₚ reverse SEARCH_QUERIES) as Hperm
    by (symmetry; apply reverse_Permutation).
  split; [exact Hperm|].
  apply (fetch_order_independent lower_ascii int_of_digits search_two_down
           "2024-03-01T00:00:00Z" _ _ Hperm).
Defined.

(** ** From the extraction to the load and the summary *)

Lemma filter_length_all {A} (P : A → Prop) `{!∀ x, Decision (P x)}
      (l : list A) :
  length (filter P l) = length l ↔ ∀ x, x ∈ l → P x.
Proof.
  split.
  - intros Hlen x Hx. destruct (decide (P x)) as [|Hn]; [done|].
    pose proof (length_filter_lt P l x Hx Hn). lia.
  - intros Hall. by rewrite filter_all.
Qed.

(** X14. When no storage call fails, [load_bronze] run on what
    [extract_youtube] handed over returns a count between 0 and the
    count the extraction returned, and the two counts are equal exactly
    when no extracted identifier is in the ledger; when every identifier
    of the raw store is in the ledger, the load appends one row and one
    ledger entry per extracted video whose identifier is not in the
    ledger. *)
Theorem extract_then_load (ac : bool) (tts : string → Z) (now : Z)
        (py_lower : string → string) (py_int : string → option Z)
        (search : string → string → api_result) (fmt : Z → string)
        (db : database) :
  let env := reliable ac tts now in
  let cl := dependable fmt search in
  ∃ vs n c,
    returned (run (extract_youtube env py_lower py_int cl) db) = Ok (vs, n)
    ∧ tables (run (extract_youtube env py_lower py_int cl) db) = db
    ∧ returned (run (load_bronze env (Some vs)) db) = Ok c
    ∧ 0 ≤ c ≤ n
    ∧ (c = n ↔ ∀ v, v ∈ vs → video_id v ∉ ledger_ids db)
    ∧ ((∀ i, i ∈ raw_ids db → i ∈ ledger_ids db) →
       tables (run (load_bronze env (Some vs)) db)
       = {| raw_youtube_videos :=
              raw_youtube_videos db
              ++ (raw_row_of_video env <$> new_videos_of db vs);
            stg_processed_videos :=
              stg_processed_videos db
              ++ (processed_row_of_video <$> new_videos_of db vs) |}).
Proof.
  cbn zeta.
  set (w := fmt (default (now - 7 * seconds_per_day)
                         (max_published_at (raw_youtube_videos db)))).
  set (vs := deduplicate (fetch_all py_lower py_int search w SEARCH_QUERIES).1).
  exists vs, (Z.of_nat (length vs)),
         (Z.of_nat (length (new_videos_of db vs))).
  unfold returned, tables.
  rewrite extract_youtube_run, watermark_reader_run, load_bronze_reliable.
  cbn [faults reliable fst snd current_timestamp import_build strftime build
       xcom_push_videos xcom_push_video_count dependable andb].
  change (default [] (Some vs)) with vs. fold w. fold vs.
  split_and!; try done.
  - lia.
  - apply inj_le, length_filter.
  - rewrite Nat2Z.inj_iff. apply filter_length_all.
  - intros Hsub. apply load_videos_fresh.
    + eapply sublist_NoDup; [apply deduplicate_NoDup|].
      apply fmap_sublist, sublist_filter.
    + intros v [Hv _]%list_elem_of_filter Hin. by apply Hv, Hsub.
Qed.

(** ** The run summary *)

(** X15. [pipeline_summary] logs seven lines, and the new-video count
    and the total can be read back from them: two summaries are the same
    exactly when the two counts and the comma-joined food names are the
    same, an XCom value that was never pushed counting as 0, or as no
    food at all. *)
Theorem pipeline_summary_reads_back (video_count total_videos : option Z)
        (top_foods : option (list string))
        (video_count' total_videos' : option Z)
        (top_foods' : option (list string)) :
  length (pipeline_summary video_count total_videos top_foods) = 7%nat
  ∧ (pipeline_summary video_count total_videos top_foods
     = pipeline_summary video_count' total_videos' top_foods'
     ↔ default 0 video_count = default 0 video_count'
       ∧ default 0 total_videos = default 0 total_videos'
       ∧ Str.join ", " (default [] top_foods)
         = Str.join ", " (default [] top_foods'))
  ∧ pipeline_summary None None None
    = pipeline_summary (Some 0) (Some 0) (Some []).
Proof.
  split_and!; [done | | done].
  unfold pipeline_summary. cbn zeta. split.
  - intros [= Hn Ht Hf].
    apply (inj (String.app _)), (inj pretty) in Hn.
    apply (inj (String.app _)), (inj pretty) in Ht.
    apply (inj (String.app _)) in Hf. done.
  - by intros (-> & -> & ->).
Qed.

(** * Further invariants of the tables *)

(** ** Every ledger entry has its row *)

Lemma load_outcome_partial env db videos r db' tr :
  load_outcome env db videos r db' tr →
  ∃ j b, db' = partial_load env db (new_videos_of db videos) j b.
Proof.
  intros Hout.
  assert (∀ k, ∃ j b,
            apply_events (take k (write_events env (new_videos_of db videos))) db
            = partial_load env db (new_videos_of db videos) j b) as Hpart
    by (intros k; rewrite take_events_partial; eauto).
  destruct Hout as [| | | k W ? ? ? ? ? | W ? ? ? ? ? | W ? ? ? ? ?];
    try subst W; try (by exists 0%nat, false).
  - destruct (autocommit env); [apply Hpart | by exists 0%nat, false].
  - destruct (autocommit env); [|by exists 0%nat, false].
    rewrite <-(firstn_all (write_events env _)). apply Hpart.
  - rewrite <-(firstn_all (write_events env _)). apply Hpart.
Qed.

Lemma apply_write_raw_ids st d i :
  i ∈ raw_ids d → i ∈ raw_ids (apply_write st d).
Proof.
  unfold raw_ids. destruct (apply_write_appends st d) as [[k ->] _].
  rewrite fmap_app, elem_of_app. by left.
Qed.

Lemma partial_load_ledger_in_raw env db l j b :
  (∀ i, i ∈ ledger_ids db → i ∈ raw_ids db) →
  ∀ i, i ∈ ledger_ids (partial_load env db l j b) →
       i ∈ raw_ids (partial_load env db l j b).
Proof.
  intros Hinv i. rewrite ledger_ids_partial, elem_of_app. intros Hi.
  assert (i ∈ raw_ids (load_videos env (take j l) db)) as Hraw.
  { apply raw_ids_load_videos. destruct Hi as [Hi | Hi]; [left; by apply Hinv | by right]. }
  unfold partial_load. destruct b; [|done].
  destruct (l !! j); [|done]. by apply apply_write_raw_ids.
Qed.

(** X16. If every identifier of the ledger has a row in the raw store,
    this stays so after any sequence of runs of [load_bronze], in either
    transaction mode and whichever storage calls fail: the MERGE of a
    video always comes before its ledger entry. *)
Theorem ledger_entries_have_rows
        (runs : list (environment * option (list video))) (db : database) :
  (∀ i, i ∈ ledger_ids db → i ∈ raw_ids db) →
  ∀ i, i ∈ ledger_ids (load_runs runs db) → i ∈ raw_ids (load_runs runs db).
Proof.
  apply (load_runs_inv (λ d, ∀ i, i ∈ ledger_ids d → i ∈ raw_ids d)).
  intros env videos d Hd.
  destruct (load_bronze_run_cases env videos d)
    as [-> | (batch & -> & Hne & Hout)]; [done|].
  apply load_outcome_partial in Hout as (j & b & ->).
  by apply partial_load_ledger_in_raw.
Qed.

Lemma ledger_entries_have_rows_witness :
  (∀ i, i ∈ ledger_ids db_with_a → i ∈ raw_ids db_with_a)
  ∧ ∀ i, i ∈ ledger_ids
             (load_runs [(env_autocommit_fault_insert, Some [video_b; video_a]);
                         (env_autocommit_fault, Some [video_a; video_b])]
                        db_with_a)
         → i ∈ raw_ids
             (load_runs [(env_autocommit_fault_insert, Some [video_b; video_a]);
                         (env_autocommit_fault, Some [video_a; video_b])]
                        db_with_a).
Proof.
  assert (∀ i, i ∈ ledger_ids db_with_a → i ∈ raw_ids db_with_a) as Hinv
    by done.
  split; [exact Hinv|]. by apply ledger_entries_have_rows.
Defined.

(** ** Loading a batch in two parts *)

(** X17. When no storage call fails and a batch has no duplicate
    identifier, loading its first part and then its second part leaves
    the same raw store and ledger as loading the whole batch at once,
    and the two counts returned add up to the count of the whole. *)
Theorem load_bronze_split_batch (ac : bool) (tts : string → Z) (now : Z)
        (first second : list video) (db : database) :
  NoDup (video_id <$> (first ++ second)) →
  let env := reliable ac tts now in
  let out1 := run (load_bronze env (Some first)) db in
  let out2 := run (load_bronze env (Some second)) (tables out1) in
  let whole := run (load_bronze env (Some (first ++ second))) db in
  tables out2 = tables whole
  ∧ ∃ c1 c2, returned out1 = Ok c1 ∧ returned out2 = Ok c2
             ∧ returned whole = Ok (c1 + c2).
Proof.
  intros Hnd. cbn zeta. unfold returned, tables.
  rewrite !load_bronze_reliable. cbn [fst snd].
  change (default [] (Some ?l)) with l.
  set (env := reliable ac tts now).
  assert (new_videos_of (load_videos env (new_videos_of db first) db) second
          = new_videos_of db second) as Hsecond.
  { unfold new_videos_of at 1. rewrite ledger_ids_load_videos.
    apply filter_ext_elem. intros v Hv. rewrite elem_of_app.
    split; [tauto|]. intros Hnew [Hold | Hin]; [done|].
    apply list_elem_of_fmap in Hin as (u & Hid & [_ Hu]%list_elem_of_filter).
    rewrite fmap_app in Hnd. apply NoDup_app in Hnd as (_ & Hdisj & _).
    apply (Hdisj (video_id u)); [by apply list_elem_of_fmap_2|].
    rewrite <-Hid. by apply list_elem_of_fmap_2. }
  assert (new_videos_of db (first ++ second)
          = new_videos_of db first ++ new_videos_of db second) as Hwhole
    by apply filter_app.
  rewrite Hsecond, Hwhole, load_videos_app. split; [done|].
  eexists _, _. split_and!; [done..|].
  by rewrite length_app, Nat2Z.inj_add.
Qed.

Lemma load_bronze_split_batch_witness :
  NoDup (video_id <$> ([video_a] ++ [video_b]))
  ∧ tables (run (load_bronze (reliable true fixed_timestamp 1710000000)
                             (Some [video_b]))
                (tables (run (load_bronze (reliable true fixed_timestamp 1710000000)
                                          (Some [video_a])) empty_db)))
    = tables (run (load_bronze (reliable true fixed_timestamp 1710000000)
                               (Some ([video_a] ++ [video_b]))) empty_db).
Proof.
  assert (NoDup (video_id <$> ([video_a] ++ [video_b]))) as Hnd.
  { cbn. apply NoDup_cons. split; [|apply NoDup_singleton].
    by intros ?%list_elem_of_singleton. }
  split; [exact Hnd|].
  apply (load_bronze_split_batch true fixed_timestamp 1710000000
           [video_a] [video_b] empty_db Hnd).
Defined.

(** ** The case of the text *)

(** X18. The keyword filter does not look at the case of the text: two
    items with the same identifier, channel name and publication
    timestamp, whose titles have the same lower case and whose
    descriptions (an absent one counting as empty) have the same lower
    case, are treated alike: both raise, both are skipped, or both are
    kept with the same keywords recorded, each with its own title and
    description. *)
Theorem keyword_filter_ignores_case (py_lower : string → string)
        (py_int : string → option Z) (it it' : item) :
  item_videoId it' = item_videoId it →
  item_channelTitle it' = item_channelTitle it →
  item_publishedAt it' = item_publishedAt it →
  py_lower <$> item_title it' = py_lower <$> item_title it →
  py_lower (default "" (item_description it'))
  = py_lower (default "" (item_description it)) →
  match process_item py_lower py_int it, process_item py_lower py_int it' with
  | Kept v, Kept v' =>
      mentioned_foods v' = mentioned_foods v
      ∧ video_id v' = video_id v
      ∧ channel_title v' = channel_title v
      ∧ published_at v' = published_at v
      ∧ url v' = url v
      ∧ year v' = year v
      ∧ Some (title v) = item_title it
      ∧ Some (title v') = item_title it'
      ∧ description v = default "" (item_description it)
      ∧ description v' = default "" (item_description it')
  | Skipped, Skipped => True
  | Raised, Raised => True
  | _, _ => False
  end.
Proof.
  intros Hid Hchan Hpub Httl Hdescr. unfold process_item.
  rewrite Hid, Hchan, Hpub.
  destruct (item_title it) as [ttl|], (item_title it') as [ttl'|];
    try done.
  injection Httl as Httl.
  assert (search_text py_lower ttl' (default "" (item_description it'))
          = search_text py_lower ttl (default "" (item_description it))) as ->.
  { unfold search_text. by rewrite Httl, Hdescr. }
  destruct (matched_keywords _) as [|f l]; [done|].
  destruct (item_videoId it), (item_channelTitle it), (item_publishedAt it)
    as [pub|]; try done.
  by destruct (py_int (Str.take 4 pub)).
Qed.

Lemma keyword_filter_ignores_case_witness :
  lower_ascii <$> item_title item_gel_capitals
  = lower_ascii <$> item_title item_gel
  ∧ ∃ v v', process_item lower_ascii int_of_digits item_gel = Kept v
            ∧ process_item lower_ascii int_of_digits item_gel_capitals = Kept v'
            ∧ mentioned_foods v' = mentioned_foods v.
Proof.
  split; [reflexivity|].
  pose proof (keyword_filter_ignores_case lower_ascii int_of_digits
                item_gel item_gel_capitals
                eq_refl eq_refl eq_refl eq_refl eq_refl) as H.
  destruct (process_item lower_ascii int_of_digits item_gel) as [| |v] eqn:Hp;
    [discriminate Hp | discriminate Hp |].
  destruct (process_item lower_ascii int_of_digits item_gel_capitals)
    as [| |v'] eqn:Hp'; [done | done |].
  exists v, v'. by destruct H as (? & _).
Defined.
